(** * Router core: fields, address registry and reference lists

    A shallow embedding of [src/router_core/router_core.c] (qpid-dispatch)
    and the properties of its functions.

    - [CString]   : NUL-terminated C strings, [strlen], truncating [snprintf].
    - [Field]     : [qdr_field], the chunking of a string over a chain of
                    fixed-capacity buffers, and the iterator bound to it.
    - [Registry]  : [qdr_address] and [qdr_add_local_address] over the hash
                    index and the insertion-ordered address list.
    - [RefList]   : [qdr_add_link_ref], [qdr_del_link_ref],
                    [qdr_add_node_ref], [qdr_del_node_ref].

    The definitions come first, one module per component; the properties
    follow, one section per component. *)

From Stdlib Require Import Ascii String.
From stdpp Require Import gmap strings list.

Set Warnings "-abstract-large-number".

(** ** C strings *)

Module CString.

(** A [const char *] is the list of bytes found from the pointer on.  The
    string it denotes stops before the first NUL byte (the end of the list
    stands for the terminator when no NUL occurs). *)
Definition NUL : ascii := "000"%char.

Definition is_nul (c : ascii) : bool := bool_decide (c = NUL).

(** [strlen(text)] *)
Fixpoint strlen (text : list ascii) : nat :=
  match text with
  | [] => 0
  | c :: text' => if is_nul c then 0 else S (strlen text')
  end.

(** The characters of the string at [text], terminator excluded. *)
Definition c_str (text : list ascii) : list ascii := take (strlen text) text.

(** A string literal as a [const char *]. *)
Definition lit (s : string) : list ascii := list_ascii_of_string s.

(** [snprintf(dst, size, "L%s", src)]: the content of [dst] afterwards.  At
    most [size - 1] characters of the formatted text are stored, followed by
    the terminator; nothing is stored when [size] is 0. *)
Definition snprintf_L (size : nat) (src : list ascii) : list ascii :=
  take (size - 1) ("L"%char :: c_str src).

End CString.

(** ** Fields: a string chunked over a chain of buffers *)

Module Field.
Import CString.

(** Modelled from the spec: the buffer module ([qd_buffer],
    [qd_buffer_capacity], [qd_buffer_cursor], [qd_buffer_insert]) is not
    under src/.  "Buffer capacity is fixed and pool-defined": a buffer is a
    storage area of [BUFFER_SIZE] bytes and the count [size] of the bytes
    filled so far. [bytes] holds the bytes written to the storage area from
    its base. *)
Record qd_buffer_t := Buffer { bytes : list ascii; size : nat }.

(** Modelled from the spec: the field iterator module is not under src/.
    "one iterator bound to a registered view of the whole chain": the
    iterator holds the buffer it stands in, followed by that buffer's
    successors in the chain, a cursor inside that buffer and the number of
    bytes still to read. *)
Record qd_field_iterator_t :=
  Iterator { it_chain : list qd_buffer_t; it_cursor : nat; it_length : nat }.

(** [qdr_field_t]: the buffer list and the iterator (a pointer, null after
    [ZERO]). The list [DEQ] of buffers is the list of its elements from head
    to tail. *)
Record qdr_field_t :=
  FieldRec { buffers : list qd_buffer_t; iterator : option qd_field_iterator_t }.

(** The allocation pools the function draws from: how many objects of each
    kind have been handed out. *)
Record pools :=
  Pools { buffers_allocated : nat; fields_allocated : nat; iterators_allocated : nat }.

Section buffers.
(** The pool-defined capacity of a buffer. *)
Variable BUFFER_SIZE : nat.

(** [qd_buffer()]: a fresh, empty buffer from the pool. *)
Definition qd_buffer (p : pools) : qd_buffer_t * pools :=
  (Buffer [] 0,
   Pools (S (buffers_allocated p)) (fields_allocated p) (iterators_allocated p)).

(** [qd_buffer_capacity(buf)]: the room left. *)
Definition qd_buffer_capacity (buf : qd_buffer_t) : nat := BUFFER_SIZE - size buf.

(** [memcpy(qd_buffer_cursor(buf), text, copy)]: the cursor is at offset
    [size buf] of the storage area. *)
Definition memcpy_cursor (buf : qd_buffer_t) (text : list ascii) (copy : nat)
  : qd_buffer_t :=
  Buffer (take (size buf) (bytes buf) ++ take copy text) (size buf).

(** [qd_buffer_insert(buf, len)]: account for [len] bytes written at the
    cursor. *)
Definition qd_buffer_insert (buf : qd_buffer_t) (len : nat) : qd_buffer_t :=
  Buffer (bytes buf) (size buf + len).

(** [new_qdr_field_t()] *)
Definition new_qdr_field_t (p : pools) : pools :=
  Pools (buffers_allocated p) (S (fields_allocated p)) (iterators_allocated p).

(** [qd_field_iterator_buffer(buffer, offset, length)] *)
Definition qd_field_iterator_buffer
    (chain : list qd_buffer_t) (offset length : nat) (p : pools)
  : qd_field_iterator_t * pools :=
  (Iterator chain offset length,
   Pools (buffers_allocated p) (fields_allocated p) (S (iterators_allocated p))).

(** The [while (length > 0)] loop of [qdr_field]; [fuel] bounds the number
    of iterations and [None] means it was used up.  [buffers] is
    [field->buffers], [text] the advancing source pointer. *)
Fixpoint qdr_field_loop (fuel length : nat) (text : list ascii)
    (buffers : list qd_buffer_t) (p : pools) {struct fuel}
  : option (list qd_buffer_t * pools) :=
  if length =? 0 then Some (buffers, p) else
  match fuel with
  | 0 => None
  | S fuel' =>
      let '(buf, p) := qd_buffer p in
      let cap := qd_buffer_capacity buf in
      let copy := if cap <? length then cap else length in
      let buf := memcpy_cursor buf text copy in
      let buf := qd_buffer_insert buf copy in
      qdr_field_loop fuel' (length - copy) (drop copy text) (buffers ++ [buf]) p
  end.

(** [qdr_field(text)].  The outer [option] is the fuel, the inner one the
    returned pointer: [Some (None, p)] is the null return. *)
Definition qdr_field (fuel : nat) (text : list ascii) (p : pools)
  : option (option qdr_field_t * pools) :=
  let length := strlen text in
  let ilength := length in
  if length =? 0 then Some (None, p) else
  let p := new_qdr_field_t p in
  match qdr_field_loop fuel length text [] p with
  | None => None
  | Some (buffers, p) =>
      let '(iter, p) := qd_field_iterator_buffer buffers 0 ilength p in
      Some (Some (FieldRec buffers (Some iter)), p)
  end.

End buffers.

(** *** Reading a field through its iterator *)

(** [qd_field_iterator_end(iter)] *)
Definition qd_field_iterator_end (iter : qd_field_iterator_t) : bool :=
  it_length iter =? 0.

(** [qd_field_iterator_octet(iter)]: the byte under the cursor and the
    advanced iterator; the cursor moves to the base of the next buffer when
    it reaches the filled size of the current one and bytes remain. *)
Definition qd_field_iterator_octet (iter : qd_field_iterator_t)
  : ascii * qd_field_iterator_t :=
  if it_length iter =? 0 then (NUL, iter) else
  match it_chain iter with
  | [] => (NUL, Iterator [] 0 0)
  | buf :: next =>
      let result := nth (it_cursor iter) (bytes buf) NUL in
      let cursor := S (it_cursor iter) in
      let length := it_length iter - 1 in
      if (0 <? length) && (cursor =? size buf) then
        match next with
        | [] => (result, Iterator [] 0 0)
        | _ => (result, Iterator next 0 length)
        end
      else (result, Iterator (buf :: next) cursor length)
  end.

(** Sequential consumption: octets are taken until the iterator is at its
    end.  Every octet taken lowers [it_length], which bounds the loop. *)
Fixpoint read_octets (fuel : nat) (iter : qd_field_iterator_t) : list ascii :=
  match fuel with
  | 0 => []
  | S fuel' =>
      if qd_field_iterator_end iter then []
      else let '(c, iter') := qd_field_iterator_octet iter in
           c :: read_octets fuel' iter'
  end.

Definition read_all (iter : qd_field_iterator_t) : list ascii :=
  read_octets (it_length iter) iter.

(** The bytes a field is read as: those of its bound iterator. *)
Definition field_bytes (field : qdr_field_t) : list ascii :=
  match iterator field with
  | Some iter => read_all iter
  | None => []
  end.

(** The filled sizes along a chain, and their sum. *)
Definition chain_sizes (chain : list qd_buffer_t) : list nat := size <$> chain.
Definition chain_filled (chain : list qd_buffer_t) : nat := sum_list (chain_sizes chain).

(** [ceil(length / capacity)] *)
Definition ceil_div (length capacity : nat) : nat := (length + capacity - 1) / capacity.

(** The fill of a chain of full buffers followed by the remainder, if any. *)
Definition chunk_sizes (capacity length : nat) : list nat :=
  replicate (length / capacity) capacity
  ++ (if length mod capacity =? 0 then [] else [length mod capacity]).

(** A buffer whose storage holds exactly its filled bytes, at least one. *)
Definition filled (buf : qd_buffer_t) : Prop :=
  length (bytes buf) = size buf ∧ 0 < size buf.

End Field.

(** ** The address registry *)

Module Registry.
Import CString.

(** Objects of the address pool and the entries of the hash index are named
    by their addresses, natural numbers; the null pointer is [None]. *)

(** Modelled from the spec: the hash module ([qd_hash_retrieve],
    [qd_hash_insert]) is not under src/.  "a hash table from address-key to
    Address entry": a finite map from the key's characters to the address
    pointer.  The handle given back by an insertion names the entry by its
    key. *)
Definition qd_hash_retrieve (hash : gmap string nat) (key : string) : option nat :=
  hash !! key.

Definition qd_hash_insert (hash : gmap string nat) (key : string) (val : nat)
  : gmap string nat * option string :=
  (<[key := val]> hash, Some key).

(** [qd_address_iterator_string(text, ITER_VIEW_ALL)]: the view of all the
    characters of the C string at [text]; it is what the hash module reads
    the key from. *)
Definition qd_address_iterator_string (text : list ascii) : string :=
  string_of_list_ascii (c_str text).

Section registry.
(** The semantics tag, the forwarder and the resolver from the one to the
    other belong to the forwarding code, outside this file. *)
Context {qd_address_semantics_t qd_router_forwarder_t : Type}.
Variable qd_router_get_forwarder : qd_address_semantics_t -> qd_router_forwarder_t.

(** Modelled from the spec: [qdr_address_t] is declared in
    router_core_private.h, not under src/.  The fields are those the
    source assigns and those the spec lists: "semantics, a forwarder
    binding, a deletion-block flag, a hash-table handle, and two reference
    lists (interested links, interested remote nodes)".  The list linkage
    is the address's position in [addrs]. *)
Record qdr_address_t := Address {
  semantics : qd_address_semantics_t;
  forwarder : qd_router_forwarder_t;
  block_deletion : bool;
  hash_handle : option string;
  rlinks : list nat;
  rnodes : list nat
}.

(** The part of [qdr_core_t] the registry functions use. *)
Record qdr_core_t := Core {
  addr_hash : gmap string nat;
  addrs : list nat
}.

(** The core and the pool of address objects. *)
Record memory := Mem {
  core : qdr_core_t;
  address_pool : gmap nat qdr_address_t
}.

(** [new_qdr_address_t()]: an object that is not in use. *)
Definition new_qdr_address_t (pool : gmap nat qdr_address_t) : nat :=
  fresh (dom pool : gset nat).

(** [qdr_address(semantics)]: [ZERO(addr)] leaves the flag false, the
    handle null and both reference lists empty. *)
Definition qdr_address (semantics : qd_address_semantics_t)
    (pool : gmap nat qdr_address_t) : nat * gmap nat qdr_address_t :=
  let addr := new_qdr_address_t pool in
  (addr,
   <[addr := Address semantics (qd_router_get_forwarder semantics)
                     false None [] []]> pool).

(** [addr->hash_handle = handle] and [addr->block_deletion = b] *)
Definition set_hash_handle (handle : option string) (a : qdr_address_t) :=
  Address (semantics a) (forwarder a) (block_deletion a) handle (rlinks a) (rnodes a).

Definition set_block_deletion (b : bool) (a : qdr_address_t) :=
  Address (semantics a) (forwarder a) b (hash_handle a) (rlinks a) (rnodes a).

(** [qdr_add_local_address(core, address, semantics)] *)
Definition qdr_add_local_address (m : memory) (address : list ascii)
    (semantics : qd_address_semantics_t) : nat * memory :=
  let addr_string := snprintf_L 1000 address in
  let iter := qd_address_iterator_string addr_string in
  match qd_hash_retrieve (addr_hash (core m)) iter with
  | Some addr => (addr, m)
  | None =>
      let '(addr, pool) := qdr_address semantics (address_pool m) in
      let '(hash, handle) := qd_hash_insert (addr_hash (core m)) iter addr in
      let pool := alter (set_hash_handle handle) addr pool in
      let addrs := addrs (core m) ++ [addr] in
      let pool := alter (set_block_deletion true) addr pool in
      (addr, Mem (Core hash addrs) pool)
  end.

(** The key under which [qdr_add_local_address] files [address]. *)
Definition local_key (address : list ascii) : string :=
  qd_address_iterator_string (snprintf_L 1000 address).

(** The test-only lookup of the registry: the address object filed under a
    key. *)
Definition lookup_address (m : memory) (key : string) : option qdr_address_t :=
  addr ← qd_hash_retrieve (addr_hash (core m)) key; address_pool m !! addr.

Definition empty_memory : memory := Mem (Core ∅ []) ∅.

End registry.

End Registry.

(** ** Reference lists *)

Module RefList.

(** [qdr_link_ref_t]: the list node, holding the link it stands for.  The
    list linkage is the node's position in the list. *)
Record qdr_link_ref_t := LinkRef { link : nat }.

(** [qdr_link_t], reduced to the field this file assigns: the link's own
    list node (null when [None]). *)
Record qdr_link_t := Link { ref : option nat }.

(** The pool of list nodes and the link objects. *)
Record memory := Mem {
  link_ref_pool : gmap nat qdr_link_ref_t;
  links : gmap nat qdr_link_t
}.

(** [new_qdr_link_ref_t()] *)
Definition new_qdr_link_ref_t (pool : gmap nat qdr_link_ref_t) : nat :=
  fresh (dom pool : gset nat).

(** [qdr_add_link_ref(ref_list, link)]: [*ref_list] goes in and comes out. *)
Definition qdr_add_link_ref (ref_list : list nat) (link : nat) (m : memory)
  : list nat * memory :=
  let ref := new_qdr_link_ref_t (link_ref_pool m) in
  let pool := <[ref := LinkRef link]> (link_ref_pool m) in
  let links := <[link := Link (Some ref)]> (links m) in
  (ref_list ++ [ref], Mem pool links).

(** [qdr_del_link_ref(ref_list, link)]: the body is empty. *)
Definition qdr_del_link_ref (ref_list : list nat) (link : nat) (m : memory)
  : list nat * memory :=
  (ref_list, m).

(** [qdr_add_node_ref(ref_list, rnode)]: the body is empty. *)
Definition qdr_add_node_ref (ref_list : list nat) (rnode : nat) (m : memory)
  : list nat * memory :=
  (ref_list, m).

(** [qdr_del_node_ref(ref_list, rnode)]: the body is empty. *)
Definition qdr_del_node_ref (ref_list : list nat) (rnode : nat) (m : memory)
  : list nat * memory :=
  (ref_list, m).

(** A sequence of calls on one list. *)
Inductive call := AddLinkRef (link : nat) | DelLinkRef (link : nat).

Definition run_call (c : call) (st : list nat * memory) : list nat * memory :=
  match c with
  | AddLinkRef l => qdr_add_link_ref st.1 l st.2
  | DelLinkRef l => qdr_del_link_ref st.1 l st.2
  end.

Definition run_calls (cs : list call) (st : list nat * memory) : list nat * memory :=
  foldl (fun st c => run_call c st) st cs.

(** The links the nodes of a list stand for, in list order. *)
Definition links_of (ref_list : list nat) (m : memory) : list (option nat) :=
  (fun r => link <$> link_ref_pool m !! r) <$> ref_list.

Definition empty_memory : memory := Mem ∅ ∅.

(** The number of [qdr_add_link_ref] calls in a sequence. *)
Fixpoint adds (cs : list call) : nat :=
  match cs with
  | [] => 0
  | AddLinkRef _ :: cs => S (adds cs)
  | DelLinkRef _ :: cs => adds cs
  end.

End RefList.

(** ** Releasing a field *)

Module FieldFree.
Import Field.

(** What has been handed back to the pools: how many objects of each kind. *)
Record released :=
  Released { buffers_released : nat; fields_released : nat; iterators_released : nat }.

(** [qd_field_iterator_free(iter)]: hands one iterator back; a null pointer is
    left alone. *)
Definition qd_field_iterator_free (iter : option qd_field_iterator_t) (r : released)
  : released :=
  match iter with
  | Some _ => Released (buffers_released r) (fields_released r) (S (iterators_released r))
  | None => r
  end.

(** [qd_buffer_list_free_buffers(&list)]: hands back every buffer of the
    list. *)
Definition qd_buffer_list_free_buffers (chain : list qd_buffer_t) (r : released)
  : released :=
  Released (buffers_released r + length chain) (fields_released r) (iterators_released r).

(** [free_qdr_field_t(field)] *)
Definition free_qdr_field_t (r : released) : released :=
  Released (buffers_released r) (S (fields_released r)) (iterators_released r).

(** [qdr_field_free(field)]: the argument is the pointer, null when [None]. *)
Definition qdr_field_free (field : option qdr_field_t) (r : released) : released :=
  match field with
  | Some field =>
      let r := qd_field_iterator_free (iterator field) r in
      let r := qd_buffer_list_free_buffers (buffers field) r in
      free_qdr_field_t r
  | None => r
  end.

End FieldFree.

(** ** Sequences of registry calls *)

Module RegistryRuns.
Import CString Registry.

Section runs.
Context {qd_address_semantics_t qd_router_forwarder_t : Type}.
Variable qd_router_get_forwarder : qd_address_semantics_t -> qd_router_forwarder_t.

(** One call after the other, each on the memory the one before left. *)
Definition run_adds (calls : list (list ascii * qd_address_semantics_t))
    (m : memory) : memory :=
  foldl (fun m call => (qdr_add_local_address qd_router_get_forwarder m call.1 call.2).2)
        m calls.

(** The shape of a registry that [qdr_add_local_address] keeps: every key of
    the index leads to an object in use whose handle names that key, [addrs]
    lists each object once, the objects of [addrs] are those of the index,
    and the two have as many entries. *)
Definition registry_wf (m : @memory qd_address_semantics_t qd_router_forwarder_t) : Prop :=
  (∀ key addr, addr_hash (core m) !! key = Some addr →
     ∃ object, address_pool m !! addr = Some object ∧ hash_handle object = Some key)
  ∧ NoDup (addrs (core m))
  ∧ (∀ addr, addr ∈ addrs (core m) ↔ ∃ key, addr_hash (core m) !! key = Some addr)
  ∧ length (addrs (core m)) = size (addr_hash (core m)).

End runs.

End RegistryRuns.

(** ** Sequences of reference-list calls *)

Module RefListRuns.
Import RefList.

(** The links a sequence of calls adds, in the order of the calls. *)
Fixpoint added_links (cs : list call) : list nat :=
  match cs with
  | [] => []
  | AddLinkRef l :: cs => l :: added_links cs
  | DelLinkRef _ :: cs => added_links cs
  end.

End RefListRuns.

(** ** Sample inputs *)

Module Samples.
Import CString.

(** A string of 10,000 characters. *)
Definition text_10000 : list ascii := replicate 10000 "a"%char.

(** Two strings of 999 characters that differ in the last one only. *)
Definition long_x : list ascii := replicate 998 "a"%char ++ ["x"%char].
Definition long_y : list ascii := replicate 998 "a"%char ++ ["y"%char].

(** An address of 998 characters, of which [long_x] and [long_y] are
    extensions. *)
Definition short_998 : list ascii := replicate 998 "a"%char.

(** A resolver from semantics tags to forwarders, both numbered. *)
Definition forwarder_of (semantics : nat) : nat := 100 + semantics.

End Samples.

(** * Properties *)

(** ** C strings *)

Section cstring_props.
Import CString.

Lemma strlen_le text : strlen text ≤ length text.
Proof.
  induction text as [|c text IH]; simpl; [lia|].
  destruct (is_nul c); simpl; lia.
Qed.

Lemma c_str_length text : length (c_str text) = strlen text.
Proof. unfold c_str. rewrite length_take. pose proof (strlen_le text). lia. Qed.

Lemma c_str_cons c text :
  c_str (c :: text) = if is_nul c then [] else c :: c_str text.
Proof. unfold c_str. simpl. by destruct (is_nul c). Qed.

Lemma c_str_no_nul text : Forall (fun c => is_nul c = false) (c_str text).
Proof.
  induction text as [|c text IH]; [constructor|].
  rewrite c_str_cons. destruct (is_nul c) eqn:E; [constructor|].
  by constructor.
Qed.

Lemma strlen_no_nul text :
  Forall (fun c => is_nul c = false) text → strlen text = length text.
Proof.
  induction 1 as [|c text Hc _ IH]; simpl; [done|]. by rewrite Hc, IH.
Qed.

Lemma c_str_fixed text :
  Forall (fun c => is_nul c = false) text → c_str text = text.
Proof.
  intros H. unfold c_str. rewrite (strlen_no_nul _ H). apply firstn_all.
Qed.

Lemma c_str_idemp text : c_str (c_str text) = c_str text.
Proof. apply c_str_fixed, c_str_no_nul. Qed.

Lemma strlen_lit_nonempty c text :
  is_nul c = false → 0 < strlen (c :: text).
Proof. intros H. simpl. rewrite H. lia. Qed.

End cstring_props.

(** ** Fields *)

Section field_props.
Import CString Field.

(** *** The arithmetic of chunking *)

Lemma chunk_sizes_0 C : chunk_sizes C 0 = [].
Proof.
  unfold chunk_sizes. rewrite Nat.Div0.div_0_l, Nat.Div0.mod_0_l. done.
Qed.

Lemma chunk_sizes_full C L :
  0 < C → C < L → chunk_sizes C L = C :: chunk_sizes C (L - C).
Proof.
  intros HC HL. unfold chunk_sizes.
  assert (L = (L - C) + 1 * C) as E by lia.
  assert (L / C = S ((L - C) / C)) as ->.
  { rewrite E at 1. rewrite Nat.div_add by lia. lia. }
  assert (L mod C = (L - C) mod C) as ->.
  { rewrite E at 1. apply Nat.Div0.mod_add. }
  done.
Qed.

Lemma chunk_sizes_last C L :
  0 < L → L ≤ C → chunk_sizes C L = [L].
Proof.
  intros HL HC. unfold chunk_sizes.
  destruct (decide (L = C)) as [->|Hne].
  - rewrite Nat.div_same, Nat.Div0.mod_same by lia. done.
  - rewrite Nat.div_small, Nat.mod_small by lia.
    destruct (Nat.eqb_spec L 0); [lia|done].
Qed.

Lemma chunk_sizes_sum C L : 0 < C → sum_list (chunk_sizes C L) = L.
Proof.
  intros HC. unfold chunk_sizes.
  rewrite sum_list_with_app, sum_list_replicate.
  pose proof (Nat.div_mod_eq L C) as E.
  destruct (Nat.eqb_spec (L mod C) 0) as [H0|H0]; simpl; lia.
Qed.

Lemma chunk_sizes_length C L :
  0 < C → length (chunk_sizes C L) = ceil_div L C.
Proof.
  intros HC. unfold chunk_sizes, ceil_div.
  rewrite length_app, length_replicate.
  pose proof (Nat.div_mod_eq L C) as E.
  pose proof (Nat.mod_upper_bound L C ltac:(lia)) as Hlt.
  destruct (Nat.eqb_spec (L mod C) 0) as [H0|H0]; simpl.
  - apply (Nat.div_unique _ _ _ (C - 1)); [lia|].
    rewrite H0 in E. lia.
  - apply (Nat.div_unique _ _ _ (L mod C - 1)); [lia|]. lia.
Qed.

Lemma chunk_sizes_lookup_full C L i :
  0 < C → i < ceil_div L C - 1 → chunk_sizes C L !! i = Some C.
Proof.
  intros HC Hi. rewrite <- chunk_sizes_length in Hi by done.
  unfold chunk_sizes in *. rewrite length_app, length_replicate in Hi.
  rewrite lookup_app_l by (rewrite length_replicate;
    destruct (L mod C =? 0); simpl in Hi; lia).
  apply lookup_replicate_2.
  destruct (L mod C =? 0); simpl in Hi; lia.
Qed.

Lemma chunk_sizes_lookup_last C L :
  0 < C → 0 < L →
  last (chunk_sizes C L) = Some (L - (ceil_div L C - 1) * C).
Proof.
  intros HC HL. rewrite <- chunk_sizes_length by done.
  unfold chunk_sizes. rewrite length_app, length_replicate.
  pose proof (Nat.div_mod_eq L C) as E.
  destruct (Nat.eqb_spec (L mod C) 0) as [H0|H0]; simpl.
  - rewrite app_nil_r.
    destruct (L / C) as [|q] eqn:Eq; [lia|].
    rewrite replicate_S_end, last_snoc. f_equal. nia.
  - rewrite last_snoc. f_equal. nia.
Qed.

(** *** The copying loop *)

(** One pass of the loop body on a fresh buffer: the buffer holds the next
    [copy] bytes of the source. *)
Lemma loop_body_buffer text copy :
  qd_buffer_insert (memcpy_cursor (Buffer [] 0) text copy) copy
  = Buffer (take copy text) copy.
Proof. reflexivity. Qed.

(** The loop, started with [length] bytes left at [text], ends with fuel to
    spare and appends the chunks of those bytes to the chain. *)
Lemma qdr_field_loop_spec C fuel : 0 < C → ∀ length text acc p,
  length ≤ fuel → length ≤ List.length text →
  ∃ chain,
    qdr_field_loop C fuel length text acc p
    = Some (acc ++ chain,
            Pools (buffers_allocated p + List.length chain)
                  (fields_allocated p) (iterators_allocated p))
    ∧ chain_sizes chain = chunk_sizes C length
    ∧ Forall filled chain
    ∧ concat (bytes <$> chain) = take length text.
Proof.
  intros HC. induction fuel as [|fuel IH]; intros length text acc p Hfuel Hlen.
  - assert (length = 0) as -> by lia. exists []. simpl.
    rewrite app_nil_r, Nat.add_0_r, chunk_sizes_0, take_0. by destruct p.
  - destruct (decide (length = 0)) as [->|Hpos].
    { exists []. simpl.
      rewrite app_nil_r, Nat.add_0_r, chunk_sizes_0, take_0. by destruct p. }
    cbn [qdr_field_loop].
    destruct (Nat.eqb_spec length 0) as [|_]; [done|].
    cbn [qd_buffer]. unfold qd_buffer_capacity. cbn [size].
    rewrite Nat.sub_0_r.
    set (copy := if C <? length then C else length).
    assert (0 < copy ∧ copy ≤ length ∧ copy ≤ C) as (Hc0 & Hcl & HcC).
    { subst copy. destruct (Nat.ltb_spec C length); lia. }
    rewrite loop_body_buffer.
    destruct (IH (length - copy) (drop copy text) (acc ++ [Buffer (take copy text) copy])
                (Pools (S (buffers_allocated p)) (fields_allocated p)
                       (iterators_allocated p)))
      as (chain & Hrun & Hsizes & Hfilled & Hbytes).
    { lia. }
    { rewrite length_drop. lia. }
    exists (Buffer (take copy text) copy :: chain).
    rewrite Hrun. cbn [buffers_allocated fields_allocated iterators_allocated].
    split; [|split; [|split]].
    + rewrite <- app_assoc. simpl. do 3 f_equal. lia.
    + unfold chain_sizes in *. rewrite fmap_cons, Hsizes. cbn [size].
      subst copy. destruct (Nat.ltb_spec C length).
      * symmetry. by apply chunk_sizes_full.
      * rewrite Nat.sub_diag, chunk_sizes_0. symmetry.
        apply chunk_sizes_last; lia.
    + constructor; [|done]. split; [|done]. cbn [bytes size].
      rewrite length_take. lia.
    + rewrite fmap_cons. cbn [concat bytes]. rewrite Hbytes.
      rewrite take_take_drop. f_equal. lia.
Qed.

(** *** Reading the chain back *)

Lemma chain_filled_cons buf chain :
  chain_filled (buf :: chain) = size buf + chain_filled chain.
Proof. reflexivity. Qed.

Lemma filled_chain_sum_0 chain :
  Forall filled chain → chain_filled chain = 0 → chain = [].
Proof.
  intros Hf H0. destruct Hf as [|buf chain [_ Hpos] _]; [done|].
  rewrite chain_filled_cons in H0. lia.
Qed.

(** An iterator standing at offset [c] of a filled buffer, with the rest of
    that buffer and the whole of its successors still to read, yields
    exactly those bytes. *)
Lemma read_octets_chain fuel : ∀ buf next c,
  filled buf → Forall filled next → c < size buf →
  (size buf - c) + chain_filled next ≤ fuel →
  read_octets fuel (Iterator (buf :: next) c ((size buf - c) + chain_filled next))
  = drop c (bytes buf) ++ concat (bytes <$> next).
Proof.
  induction fuel as [|fuel IH]; intros buf next c [Hlen Hpos] Hnext Hc Hfuel;
    [lia|].
  set (n := size buf - c + chain_filled next) in *.
  assert (∃ x, bytes buf !! c = Some x) as [x Hx].
  { apply lookup_lt_is_Some. lia. }
  cbn [read_octets]. unfold qd_field_iterator_end, qd_field_iterator_octet.
  cbn [it_length it_chain it_cursor].
  destruct (Nat.eqb_spec n 0) as [|_]; [lia|].
  rewrite nth_lookup, Hx. cbn [default].
  rewrite (drop_S _ _ _ Hx).
  destruct (Nat.ltb_spec 0 (n - 1)) as [Hmore|Hlast];
    destruct (Nat.eqb_spec (S c) (size buf)) as [Hend|Hmid]; cbn [andb].
  - (* last byte of this buffer, more to read: on to the next buffer *)
    rewrite drop_ge by lia.
    destruct Hnext as [|buf' next' Hbuf' Hnext'].
    { unfold n in Hmore. change (chain_filled []) with 0 in Hmore. lia. }
    unfold n in *. rewrite chain_filled_cons in *.
    assert (size buf - c + (size buf' + chain_filled next') - 1
            = size buf' - 0 + chain_filled next') as -> by lia.
    rewrite IH; [by rewrite drop_0| done | done | by destruct Hbuf' | lia].
  - (* inside this buffer *)
    assert (n - 1 = size buf - S c + chain_filled next) as -> by lia.
    rewrite IH; [done | done | done | lia | lia].
  - (* the very last byte *)
    assert (chain_filled next = 0) as H0 by lia.
    rewrite (filled_chain_sum_0 _ Hnext H0), drop_ge by lia.
    replace (n - 1) with 0 by lia. by destruct fuel.
  - lia.
Qed.

Lemma read_all_chain chain :
  Forall filled chain →
  read_all (Iterator chain 0 (chain_filled chain)) = concat (bytes <$> chain).
Proof.
  intros Hf. unfold read_all. cbn [it_length].
  destruct Hf as [|buf next Hbuf Hnext].
  - reflexivity.
  - assert (chain_filled (buf :: next) = size buf - 0 + chain_filled next) as ->.
    { rewrite chain_filled_cons. lia. }
    rewrite read_octets_chain; [by rewrite drop_0 | done | done | by destruct Hbuf | lia].
Qed.

(** *** [qdr_field] *)

(** On a non-empty string, with a positive capacity and fuel for one pass per
    byte, [qdr_field] returns a field: its chain is filled as [chunk_sizes]
    says and holds the characters of the string in order, its iterator is
    bound to the head of the chain at offset 0 for the whole length, and one
    field, one iterator and one buffer per chunk were allocated. *)
Lemma qdr_field_spec C fuel text p :
  0 < C → 0 < strlen text → strlen text ≤ fuel →
  ∃ chain,
    qdr_field C fuel text p
    = Some (Some (FieldRec chain (Some (Iterator chain 0 (strlen text)))),
            Pools (buffers_allocated p + length chain)
                  (S (fields_allocated p)) (S (iterators_allocated p)))
    ∧ chain_sizes chain = chunk_sizes C (strlen text)
    ∧ Forall filled chain
    ∧ concat (bytes <$> chain) = c_str text.
Proof.
  intros HC Hpos Hfuel. unfold qdr_field.
  destruct (Nat.eqb_spec (strlen text) 0) as [|_]; [lia|].
  destruct (qdr_field_loop_spec C fuel HC (strlen text) text [] (new_qdr_field_t p)
              Hfuel (strlen_le text))
    as (chain & Hrun & Hsizes & Hfilled & Hbytes).
  exists chain. rewrite Hrun. by destruct p.
Qed.

Lemma chain_sizes_length chain : length (chain_sizes chain) = length chain.
Proof. apply length_fmap. Qed.

(** C4. For a non-empty string of length L and a buffer capacity C > 0,
    [qdr_field] returns a field whose chain has exactly ceil(L / C) buffers
    (as many as were drawn from the pool), every buffer before the last is
    filled to C and the last holds the remainder L - (n - 1) * C; the fills
    in order are [chunk_sizes C L]. *)
Theorem qdr_field_chain_shape C fuel text p :
  0 < C → 0 < strlen text → strlen text ≤ fuel →
  ∃ field p',
    qdr_field C fuel text p = Some (Some field, p')
    ∧ length (buffers field) = ceil_div (strlen text) C
    ∧ (∀ i buf, i < length (buffers field) - 1 →
         buffers field !! i = Some buf → size buf = C)
    ∧ (∃ buf, last (buffers field) = Some buf
         ∧ size buf = strlen text - (length (buffers field) - 1) * C)
    ∧ chain_sizes (buffers field) = chunk_sizes C (strlen text)
    ∧ buffers_allocated p' = buffers_allocated p + ceil_div (strlen text) C.
Proof.
  intros HC Hpos Hfuel.
  destruct (qdr_field_spec C fuel text p HC Hpos Hfuel)
    as (chain & Hrun & Hsizes & _ & _).
  assert (length chain = ceil_div (strlen text) C) as Hn.
  { rewrite <- chain_sizes_length, Hsizes. by apply chunk_sizes_length. }
  eexists _, _. split; [exact Hrun|]. cbn [buffers buffers_allocated].
  split; [exact Hn|]. split; [|split; [|split; [exact Hsizes|by rewrite Hn]]].
  - intros i buf Hi Hbuf.
    assert (chain_sizes chain !! i = Some (size buf)) as Hs.
    { unfold chain_sizes. by rewrite list_lookup_fmap, Hbuf. }
    rewrite Hsizes, chunk_sizes_lookup_full in Hs by (done || lia). congruence.
  - pose proof (chunk_sizes_lookup_last C (strlen text) HC Hpos) as Hl.
    rewrite <- Hsizes in Hl. unfold chain_sizes in Hl. rewrite fmap_last in Hl.
    destruct (last chain) as [buf|]; [|done].
    exists buf. split; [done|]. rewrite Hn. by injection Hl.
Qed.

(** C5. For a non-empty string, the fills of the chain built by [qdr_field]
    add up to the length of the string, the bytes stored along the chain are
    the string, and reading the bound iterator from start to end gives back
    the string. *)
Theorem qdr_field_round_trip C fuel text p :
  0 < C → 0 < strlen text → strlen text ≤ fuel →
  ∃ field p',
    qdr_field C fuel text p = Some (Some field, p')
    ∧ chain_filled (buffers field) = strlen text
    ∧ concat (bytes <$> buffers field) = c_str text
    ∧ field_bytes field = c_str text.
Proof.
  intros HC Hpos Hfuel.
  destruct (qdr_field_spec C fuel text p HC Hpos Hfuel)
    as (chain & Hrun & Hsizes & Hfilled & Hbytes).
  assert (chain_filled chain = strlen text) as Hsum.
  { unfold chain_filled. rewrite Hsizes. by apply chunk_sizes_sum. }
  eexists _, _. split; [exact Hrun|]. cbn [buffers].
  split; [exact Hsum|]. split; [exact Hbytes|].
  unfold field_bytes. cbn [iterator].
  rewrite <- Hsum, read_all_chain by done. exact Hbytes.
Qed.

(** C6. On a string of length zero [qdr_field] returns the null pointer,
    whatever the fuel, and leaves every pool as it was: no field, no buffer
    and no iterator is allocated. *)
Theorem qdr_field_empty C fuel text p :
  strlen text = 0 → qdr_field C fuel text p = Some (None, p).
Proof. intros H. unfold qdr_field. by rewrite H. Qed.

(** The claims at work: the chain of a 10,000-byte string over buffers of
    4,096 bytes. *)
Lemma qdr_field_chain_shape_10000 :
  (0 < 4096 ∧ 0 < strlen Samples.text_10000 ∧ strlen Samples.text_10000 ≤ 10000)
  ∧ ∃ field p',
      qdr_field 4096 10000 Samples.text_10000 (Pools 0 0 0) = Some (Some field, p')
      ∧ length (buffers field) = 3
      ∧ chain_sizes (buffers field) = [4096; 4096; 1808]
      ∧ buffers_allocated p' = 3.
Proof.
  assert (0 < 4096) as H1 by lia.
  assert (0 < strlen Samples.text_10000) as H2
    by (apply Nat.ltb_lt; vm_compute; reflexivity).
  assert (strlen Samples.text_10000 ≤ 10000) as H3
    by (apply Nat.leb_le; vm_compute; reflexivity).
  split; [by repeat split|].
  destruct (qdr_field_chain_shape 4096 10000 Samples.text_10000 (Pools 0 0 0) H1 H2 H3)
    as (field & p' & Hrun & Hn & _ & _ & Hsizes & Halloc).
  exists field, p'. split; [exact Hrun|].
  split; [rewrite Hn; vm_compute; reflexivity|].
  split; [rewrite Hsizes; vm_compute; reflexivity|].
  rewrite Halloc; vm_compute; reflexivity.
Defined.

(** A length that is a multiple of the capacity, and one that is not. *)
Lemma qdr_field_round_trip_examples :
  (0 < 3 ∧ 0 < strlen (lit "abcdef") ∧ strlen (lit "abcdef") ≤ 6
   ∧ ∃ field p',
       qdr_field 3 6 (lit "abcdef") (Pools 0 0 0) = Some (Some field, p')
       ∧ chain_filled (buffers field) = 6
       ∧ field_bytes field = lit "abcdef")
  ∧ (0 < 3 ∧ 0 < strlen (lit "abcdefgh") ∧ strlen (lit "abcdefgh") ≤ 8
     ∧ ∃ field p',
         qdr_field 3 8 (lit "abcdefgh") (Pools 0 0 0) = Some (Some field, p')
         ∧ chain_filled (buffers field) = 8
         ∧ field_bytes field = lit "abcdefgh").
Proof.
  split.
  - assert (0 < 3) as H1 by lia.
    assert (0 < strlen (lit "abcdef")) as H2 by (vm_compute; lia).
    assert (strlen (lit "abcdef") ≤ 6) as H3 by (vm_compute; lia).
    do 3 (split; [done|]).
    destruct (qdr_field_round_trip 3 6 (lit "abcdef") (Pools 0 0 0) H1 H2 H3)
      as (field & p' & Hrun & Hsum & _ & Hread).
    exists field, p'. split; [exact Hrun|]. split; [exact Hsum|exact Hread].
  - assert (0 < 3) as H1 by lia.
    assert (0 < strlen (lit "abcdefgh")) as H2 by (vm_compute; lia).
    assert (strlen (lit "abcdefgh") ≤ 8) as H3 by (vm_compute; lia).
    do 3 (split; [done|]).
    destruct (qdr_field_round_trip 3 8 (lit "abcdefgh") (Pools 0 0 0) H1 H2 H3)
      as (field & p' & Hrun & Hsum & _ & Hread).
    exists field, p'. split; [exact Hrun|]. split; [exact Hsum|exact Hread].
Defined.

Lemma qdr_field_empty_string :
  strlen (lit "") = 0
  ∧ qdr_field 4096 0 (lit "") (Pools 0 0 0) = Some (None, Pools 0 0 0).
Proof.
  assert (strlen (lit "") = 0) as H by reflexivity.
  split; [exact H|]. apply (qdr_field_empty 4096 0 (lit "") (Pools 0 0 0) H).
Defined.

(** The same inputs run through the definitions. *)
Example qdr_field_10000_run :
  match qdr_field 4096 10000 Samples.text_10000 (Pools 0 0 0) with
  | Some (Some field, p') =>
      chain_sizes (buffers field) = [4096; 4096; 1808]
      ∧ field_bytes field = Samples.text_10000
      ∧ p' = Pools 3 1 1
  | _ => False
  end.
Proof. vm_compute. by repeat split. Qed.

Example qdr_field_exact_multiple_run :
  match qdr_field 4 8 (lit "12345678") (Pools 0 0 0) with
  | Some (Some field, _) =>
      chain_sizes (buffers field) = [4; 4]
      ∧ field_bytes field = lit "12345678"
  | _ => False
  end.
Proof. vm_compute. by split. Qed.

(** X4. Without capacity the loop makes no progress: no amount of fuel is
    enough. *)
Lemma qdr_field_loop_no_capacity fuel : ∀ length text acc p,
  0 < length → qdr_field_loop 0 fuel length text acc p = None.
Proof.
  induction fuel as [|fuel IH]; intros length text acc p Hpos;
    cbn [qdr_field_loop]; destruct (Nat.eqb_spec length 0) as [|_]; try lia.
  - done.
  - cbn [qd_buffer]. unfold qd_buffer_capacity. cbn [size Nat.sub].
    destruct (Nat.ltb_spec 0 length); [|lia].
    rewrite Nat.sub_0_r. by apply IH.
Qed.

Lemma qdr_field_loop_no_capacity_run :
  0 < 1 ∧ qdr_field_loop 0 50 1 (lit "a") [] (Pools 0 0 0) = None.
Proof.
  assert (0 < 1) as H by lia.
  split; [exact H|].
  exact (qdr_field_loop_no_capacity 50 1 (lit "a") [] (Pools 0 0 0) H).
Defined.

End field_props.

(** ** The address registry *)

Section registry_props.
Import CString Registry.

Context {qd_address_semantics_t qd_router_forwarder_t : Type}.
Variable qd_router_get_forwarder : qd_address_semantics_t → qd_router_forwarder_t.

Abbreviation address := (qdr_address_t (qd_address_semantics_t := qd_address_semantics_t)
                                   (qd_router_forwarder_t := qd_router_forwarder_t)).
Abbreviation add_local_address := (qdr_add_local_address qd_router_get_forwarder).

(** *** The key *)

Lemma string_of_list_ascii_length l :
  String.length (string_of_list_ascii l) = length l.
Proof. induction l as [|c l IH]; simpl; [done|]. by rewrite IH. Qed.

Lemma string_of_list_ascii_inj l1 l2 :
  string_of_list_ascii l1 = string_of_list_ascii l2 → l1 = l2.
Proof.
  intros H. rewrite <- (list_ascii_of_string_of_list_ascii l1),
    <- (list_ascii_of_string_of_list_ascii l2). by rewrite H.
Qed.

Lemma snprintf_L_no_nul size src :
  Forall (fun c => is_nul c = false) (snprintf_L size src).
Proof.
  unfold snprintf_L. apply Forall_take. constructor; [done|]. apply c_str_no_nul.
Qed.

Lemma snprintf_L_1000 src :
  snprintf_L 1000 src = "L"%char :: take 998 (c_str src).
Proof. reflexivity. Qed.

(** The key is the marker [L] followed by the first 998 characters of the
    address. *)
Lemma local_key_eq a :
  local_key a = String "L" (string_of_list_ascii (take 998 (c_str a))).
Proof.
  unfold local_key, qd_address_iterator_string.
  rewrite (c_str_fixed _ (snprintf_L_no_nul 1000 a)), snprintf_L_1000.
  reflexivity.
Qed.

Lemma local_key_short a :
  strlen a ≤ 998 → local_key a = String "L" (string_of_list_ascii (c_str a)).
Proof.
  intros H. rewrite local_key_eq, take_ge; [done|]. by rewrite c_str_length.
Qed.

Lemma local_key_length a : String.length (local_key a) = S (strlen a `min` 998).
Proof.
  rewrite local_key_eq. simpl.
  rewrite string_of_list_ascii_length, length_take, c_str_length. lia.
Qed.

Lemma local_key_prefix a1 a2 :
  take 998 (c_str a1) = take 998 (c_str a2) ↔ local_key a1 = local_key a2.
Proof.
  rewrite !local_key_eq. split; [by intros ->|].
  intros [= H]. by apply string_of_list_ascii_inj.
Qed.

(** *** The two branches of [qdr_add_local_address] *)

Lemma qdr_add_local_address_hit (m : memory) a semantics addr :
  qd_hash_retrieve (addr_hash (core m)) (local_key a) = Some addr →
  add_local_address m a semantics = (addr, m).
Proof.
  intros H. unfold qdr_add_local_address. fold (local_key a). by rewrite H.
Qed.

Lemma qdr_add_local_address_new (m : memory) a semantics :
  qd_hash_retrieve (addr_hash (core m)) (local_key a) = None →
  let addr := new_qdr_address_t (address_pool m) in
  add_local_address m a semantics
  = (addr,
     Mem (Core (<[local_key a := addr]> (addr_hash (core m)))
               (addrs (core m) ++ [addr]))
         (<[addr := Address semantics (qd_router_get_forwarder semantics) true
                            (Some (local_key a)) [] []]> (address_pool m))).
Proof.
  intros H addr. unfold qdr_add_local_address. fold (local_key a). rewrite H.
  unfold qdr_address, qd_hash_insert. fold addr.
  by rewrite !alter_insert_eq.
Qed.

Lemma new_qdr_address_t_fresh (pool : gmap nat address) :
  pool !! new_qdr_address_t pool = None.
Proof. unfold new_qdr_address_t. apply not_elem_of_dom, is_fresh. Qed.

(** After a call the key of the address is bound to the returned object and
    no other key of the index has changed. *)
Lemma qdr_add_local_address_binds (m : memory) a semantics :
  ∃ addr m',
    add_local_address m a semantics = (addr, m')
    ∧ qd_hash_retrieve (addr_hash (core m')) (local_key a) = Some addr
    ∧ ∀ key, key ≠ local_key a →
        qd_hash_retrieve (addr_hash (core m')) key
        = qd_hash_retrieve (addr_hash (core m)) key.
Proof.
  destruct (qd_hash_retrieve (addr_hash (core m)) (local_key a)) as [addr|] eqn:H.
  - exists addr, m. by rewrite (qdr_add_local_address_hit m a _ addr H).
  - eexists _, _.
    split; [exact (qdr_add_local_address_new m a semantics H)|].
    cbn [core addr_hash].
    split; [apply lookup_insert_eq|].
    intros key Hne. by apply lookup_insert_ne.
Qed.

(** *** Creation and lookup *)

(** C1, as the code has it.  The key that counts is not the caller's string
    but the key the function forms from it, the marker [L] followed by the
    first 998 characters of the string.  When that key is not in the hash
    index, [qdr_add_local_address] takes an address object that was not in
    use, binds it to [semantics] and to the forwarder resolved from it, files
    it in the hash index under that key and at the tail of [addrs], sets
    [block_deletion], leaves every other object and key alone and returns
    it; a lookup of that key then finds that object, whose two reference
    lists are empty. *)
Theorem qdr_add_local_address_creates (m : memory) a semantics :
  qd_hash_retrieve (addr_hash (core m)) (local_key a) = None →
  ∃ addr m' object,
    add_local_address m a semantics = (addr, m')
    ∧ address_pool m !! addr = None
    ∧ address_pool m' !! addr = Some object
    ∧ object = Address semantics (qd_router_get_forwarder semantics) true
                       (Some (local_key a)) [] []
    ∧ addr_hash (core m') = <[local_key a := addr]> (addr_hash (core m))
    ∧ addrs (core m') = addrs (core m) ++ [addr]
    ∧ (∀ other, other ≠ addr → address_pool m' !! other = address_pool m !! other)
    ∧ qd_hash_retrieve (addr_hash (core m')) (local_key a) = Some addr
    ∧ lookup_address m' (local_key a) = Some object
    ∧ block_deletion object = true ∧ rlinks object = [] ∧ rnodes object = []
    ∧ local_key a = String "L" (string_of_list_ascii (take 998 (c_str a))).
Proof.
  intros Hmiss. eexists _, _, _.
  split; [exact (qdr_add_local_address_new m a semantics Hmiss)|].
  cbn [core address_pool addr_hash addrs].
  split; [apply new_qdr_address_t_fresh|].
  split; [apply lookup_insert_eq|].
  split; [reflexivity|]. split; [reflexivity|]. split; [reflexivity|].
  split; [intros other Hne; by apply lookup_insert_ne|].
  assert (qd_hash_retrieve
            (<[local_key a := new_qdr_address_t (address_pool m)]> (addr_hash (core m)))
            (local_key a) = Some (new_qdr_address_t (address_pool m))) as Hfound
    by apply lookup_insert_eq.
  split; [exact Hfound|].
  split; [|repeat split; apply local_key_eq].
  unfold lookup_address. cbn [core address_pool addr_hash].
  rewrite Hfound. cbn. apply lookup_insert_eq.
Qed.

(** C2. Two calls with the same address, whatever the two semantics, return
    the same address object, and the second call changes nothing: neither the
    core nor any object of the pool.  When the first call created the object,
    it still carries the semantics of the first call after the second. *)
Theorem qdr_add_local_address_twice (m : memory) a s1 s2 :
  ∃ addr m1,
    add_local_address m a s1 = (addr, m1)
    ∧ add_local_address m1 a s2 = (addr, m1)
    ∧ (qd_hash_retrieve (addr_hash (core m)) (local_key a) = None →
       ∃ object,
         lookup_address (add_local_address m1 a s2).2 (local_key a) = Some object
         ∧ semantics object = s1
         ∧ forwarder object = qd_router_get_forwarder s1).
Proof.
  destruct (qd_hash_retrieve (addr_hash (core m)) (local_key a)) as [addr|] eqn:H.
  - exists addr, m.
    by rewrite !(qdr_add_local_address_hit m a _ addr H).
  - eexists _, _.
    split; [exact (qdr_add_local_address_new m a s1 H)|].
    set (m1 := Mem _ _).
    assert (add_local_address m1 a s2 = (new_qdr_address_t (address_pool m), m1)) as ->.
    { apply qdr_add_local_address_hit. apply lookup_insert_eq. }
    split; [done|]. intros _. eexists. split.
    + unfold lookup_address, qd_hash_retrieve, m1.
      cbn [snd core address_pool addr_hash].
      rewrite lookup_insert_eq. cbn. apply lookup_insert_eq.
    + done.
Qed.


(** C10. The key keeps the marker and the first 998 characters of the
    address only: an address of more than 998 characters is filed under a key
    of 999 characters that is not the marker followed by the whole address.
    Two addresses that agree on their first 998 characters (two long ones, or
    an address of 998 characters and any extension of it) have the same key:
    a call with the first followed by a call with the second returns one and
    the same object, bound under that key; the second call changes nothing,
    and when the first created the object it carries the semantics of the
    first. *)
Theorem qdr_add_local_address_truncates (m : memory) a1 a2 s1 s2 :
  take 998 (c_str a1) = take 998 (c_str a2) →
  local_key a1 = local_key a2
  ∧ local_key a1 = String "L" (string_of_list_ascii (take 998 (c_str a1)))
  ∧ (998 < strlen a1 →
     String.length (local_key a1) = 999
     ∧ local_key a1 ≠ String "L" (string_of_list_ascii (c_str a1)))
  ∧ ∃ addr m1,
      add_local_address m a1 s1 = (addr, m1)
      ∧ add_local_address m1 a2 s2 = (addr, m1)
      ∧ qd_hash_retrieve (addr_hash (core m1)) (local_key a1) = Some addr
      ∧ qd_hash_retrieve (addr_hash (core m1)) (local_key a2) = Some addr
      ∧ match qd_hash_retrieve (addr_hash (core m)) (local_key a1) with
        | Some found => addr = found ∧ m1 = m
        | None =>
            address_pool m !! addr = None
            ∧ address_pool m1 !! addr
              = Some (Address s1 (qd_router_get_forwarder s1) true
                              (Some (local_key a1)) [] [])
            ∧ addr_hash (core m1) = <[local_key a1 := addr]> (addr_hash (core m))
            ∧ addrs (core m1) = addrs (core m) ++ [addr]
        end.
Proof.
  intros Hprefix.
  assert (local_key a1 = local_key a2) as Hkey by by apply local_key_prefix.
  split; [exact Hkey|]. split; [apply local_key_eq|].
  split.
  { intros Hlong. split; [rewrite local_key_length; lia|].
    intros E. apply (f_equal String.length) in E.
    rewrite local_key_length in E. simpl in E.
    rewrite string_of_list_ascii_length, c_str_length in E. lia. }
  destruct (qd_hash_retrieve (addr_hash (core m)) (local_key a1)) as [found|] eqn:H.
  - exists found, m.
    split; [exact (qdr_add_local_address_hit m a1 s1 found H)|].
    split; [apply qdr_add_local_address_hit; by rewrite <- Hkey|].
    split; [exact H|]. split; [by rewrite <- Hkey|]. done.
  - eexists _, _.
    split; [exact (qdr_add_local_address_new m a1 s1 H)|].
    set (m1 := Mem _ _).
    assert (qd_hash_retrieve (addr_hash (core m1)) (local_key a1)
            = Some (new_qdr_address_t (address_pool m))) as Hfound
      by apply lookup_insert_eq.
    split; [apply qdr_add_local_address_hit; by rewrite <- Hkey|].
    split; [exact Hfound|]. split; [by rewrite <- Hkey|].
    unfold m1. cbn [core addr_hash addrs address_pool].
    split; [apply new_qdr_address_t_fresh|].
    split; [apply lookup_insert_eq|]. by split.
Qed.

(** X2. Two addresses with different keys, neither in the index: two calls
    create two different objects, both found under their keys afterwards, and
    [addrs] lists them in the order of the calls. *)
Theorem qdr_add_local_address_distinct (m : memory) a1 a2 s1 s2 :
  qd_hash_retrieve (addr_hash (core m)) (local_key a1) = None →
  qd_hash_retrieve (addr_hash (core m)) (local_key a2) = None →
  local_key a1 ≠ local_key a2 →
  ∃ p1 m1 p2 m2,
    add_local_address m a1 s1 = (p1, m1)
    ∧ add_local_address m1 a2 s2 = (p2, m2)
    ∧ p1 ≠ p2
    ∧ qd_hash_retrieve (addr_hash (core m2)) (local_key a1) = Some p1
    ∧ qd_hash_retrieve (addr_hash (core m2)) (local_key a2) = Some p2
    ∧ addrs (core m2) = addrs (core m) ++ [p1; p2].
Proof.
  intros H1 H2 Hne.
  pose proof (qdr_add_local_address_new m a1 s1 H1) as Hrun1. cbv zeta in Hrun1.
  set (p1 := new_qdr_address_t (address_pool m)) in *.
  set (m1 := Mem _ _) in Hrun1.
  assert (qd_hash_retrieve (addr_hash (core m1)) (local_key a2) = None) as H2'.
  { unfold m1, qd_hash_retrieve. cbn [core addr_hash].
    by rewrite lookup_insert_ne. }
  pose proof (qdr_add_local_address_new m1 a2 s2 H2') as Hrun2. cbv zeta in Hrun2.
  set (p2 := new_qdr_address_t (address_pool m1)) in *.
  exists p1, m1, p2. eexists.
  split; [exact Hrun1|]. split; [exact Hrun2|]. cbn [core addr_hash addrs].
  split.
  { intros E. pose proof (new_qdr_address_t_fresh (address_pool m1)) as Hfresh.
    fold p2 in Hfresh. rewrite <- E in Hfresh. unfold m1 in Hfresh.
    cbn [address_pool] in Hfresh. by rewrite lookup_insert_eq in Hfresh. }
  unfold qd_hash_retrieve.
  split; [rewrite lookup_insert_ne by done; apply lookup_insert_eq|].
  split; [apply lookup_insert_eq|].
  unfold m1. cbn [core addrs]. by rewrite <- app_assoc.
Qed.

End registry_props.

Section registry_runs.
Import CString Registry.

Abbreviation empty := (@empty_memory nat nat).
Abbreviation add_local := (qdr_add_local_address Samples.forwarder_of).

Lemma qdr_add_local_address_creates_news :
  qd_hash_retrieve (addr_hash (core empty)) (local_key (lit "news")) = None
  ∧ ∃ addr m' object,
      add_local empty (lit "news") 5 = (addr, m')
      ∧ addrs (core m') = [addr]
      ∧ lookup_address m' "Lnews" = Some object
      ∧ semantics object = 5 ∧ forwarder object = Samples.forwarder_of 5
      ∧ block_deletion object = true ∧ rlinks object = [] ∧ rnodes object = [].
Proof.
  assert (qd_hash_retrieve (addr_hash (core empty)) (local_key (lit "news")) = None)
    as Hmiss by reflexivity.
  split; [exact Hmiss|].
  destruct (qdr_add_local_address_creates Samples.forwarder_of empty (lit "news") 5 Hmiss)
    as (addr & m' & object & Hrun & _ & _ & Hobj & _ & Hlist & _ & _ & Hlook
        & Hblock & Hlinks & Hnodes & _).
  exists addr, m', object.
  split; [exact Hrun|]. split; [exact Hlist|]. split; [exact Hlook|].
  split; [by rewrite Hobj|]. split; [by rewrite Hobj|]. by repeat split.
Defined.

(** C1, as the claim has it, fails.  The key [Lnews] is not in the empty
    registry, yet after a call with [Lnews] a lookup of [Lnews] finds
    nothing: the object is under [LLnews].  And in the registry a call with
    [news] leaves, the key [news] is not in the index, yet a call with
    [news] constructs nothing: it returns the object already there and
    changes nothing. *)
Lemma qdr_add_local_address_caller_key_fails :
  let r := add_local empty (lit "Lnews") 5 in
  let m1 := (add_local empty (lit "news") 1).2 in
  (qd_hash_retrieve (addr_hash (core empty)) "Lnews" = None
   ∧ qd_hash_retrieve (addr_hash (core r.2)) "Lnews" = None
   ∧ lookup_address r.2 "Lnews" = None
   ∧ qd_hash_retrieve (addr_hash (core r.2)) "LLnews" = Some r.1)
  ∧ (qd_hash_retrieve (addr_hash (core m1)) "news" = None
     ∧ add_local m1 (lit "news") 2 = ((add_local empty (lit "news") 1).1, m1)
     ∧ address_pool (add_local m1 (lit "news") 2).2 = address_pool m1).
Proof. vm_compute. by repeat split. Qed.


Lemma long_x_long_y_differ : Samples.long_x ≠ Samples.long_y.
Proof.
  intros E. apply (f_equal (fun l => nth 998 l NUL)) in E.
  vm_compute in E. discriminate.
Qed.

Lemma short_998_long_x_differ : Samples.short_998 ≠ Samples.long_x.
Proof.
  intros E. apply (f_equal length) in E. vm_compute in E. discriminate.
Qed.

Lemma qdr_add_local_address_truncates_long :
  (take 998 (c_str Samples.long_x) = take 998 (c_str Samples.long_y)
   ∧ Samples.long_x ≠ Samples.long_y
   ∧ 998 < strlen Samples.long_x
   ∧ String.length (local_key Samples.long_x) = 999
   ∧ local_key Samples.long_x = local_key Samples.long_y
   ∧ ∃ addr m1,
       add_local empty Samples.long_x 1 = (addr, m1)
       ∧ add_local m1 Samples.long_y 2 = (addr, m1)
       ∧ qd_hash_retrieve (addr_hash (core m1)) (local_key Samples.long_x) = Some addr
       ∧ semantics <$> address_pool m1 !! addr = Some 1)
  ∧ (take 998 (c_str Samples.short_998) = take 998 (c_str Samples.long_x)
     ∧ Samples.short_998 ≠ Samples.long_x
     ∧ local_key Samples.short_998 = local_key Samples.long_x
     ∧ ∃ addr m1,
         add_local empty Samples.short_998 1 = (addr, m1)
         ∧ add_local m1 Samples.long_x 2 = (addr, m1)
         ∧ qd_hash_retrieve (addr_hash (core m1)) (local_key Samples.long_x) = Some addr
         ∧ semantics <$> address_pool m1 !! addr = Some 1).
Proof.
  assert (qd_hash_retrieve (addr_hash (core empty)) (local_key Samples.long_x) = None)
    as Hmiss1 by reflexivity.
  assert (qd_hash_retrieve (addr_hash (core empty)) (local_key Samples.short_998) = None)
    as Hmiss2 by reflexivity.
  split.
  - assert (take 998 (c_str Samples.long_x) = take 998 (c_str Samples.long_y)) as H
      by (vm_compute; reflexivity).
    assert (998 < strlen Samples.long_x) as Hlong by (vm_compute; lia).
    destruct (qdr_add_local_address_truncates Samples.forwarder_of empty
                Samples.long_x Samples.long_y 1 2 H)
      as (Hkey & _ & Htrunc & addr & m1 & Hrun1 & Hrun2 & Hfound & _ & Hcase).
    split; [exact H|]. split; [apply long_x_long_y_differ|].
    split; [exact Hlong|]. split; [exact (proj1 (Htrunc Hlong))|].
    split; [exact Hkey|].
    exists addr, m1. split; [exact Hrun1|]. split; [exact Hrun2|].
    split; [exact Hfound|].
    rewrite Hmiss1 in Hcase. destruct Hcase as (_ & Hobj & _). by rewrite Hobj.
  - assert (take 998 (c_str Samples.short_998) = take 998 (c_str Samples.long_x)) as H
      by (vm_compute; reflexivity).
    destruct (qdr_add_local_address_truncates Samples.forwarder_of empty
                Samples.short_998 Samples.long_x 1 2 H)
      as (Hkey & _ & _ & addr & m1 & Hrun1 & Hrun2 & _ & Hfound & Hcase).
    split; [exact H|]. split; [apply short_998_long_x_differ|].
    split; [exact Hkey|].
    exists addr, m1. split; [exact Hrun1|]. split; [exact Hrun2|].
    split; [exact Hfound|].
    rewrite Hmiss2 in Hcase. destruct Hcase as (_ & Hobj & _). by rewrite Hobj.
Defined.

Lemma qdr_add_local_address_distinct_news_mail :
  (qd_hash_retrieve (addr_hash (core empty)) (local_key (lit "news")) = None
   ∧ qd_hash_retrieve (addr_hash (core empty)) (local_key (lit "mail")) = None
   ∧ local_key (lit "news") ≠ local_key (lit "mail"))
  ∧ ∃ p1 m1 p2 m2,
      add_local empty (lit "news") 1 = (p1, m1)
      ∧ add_local m1 (lit "mail") 2 = (p2, m2)
      ∧ p1 ≠ p2
      ∧ qd_hash_retrieve (addr_hash (core m2)) "Lnews" = Some p1
      ∧ qd_hash_retrieve (addr_hash (core m2)) "Lmail" = Some p2
      ∧ addrs (core m2) = [p1; p2].
Proof.
  assert (qd_hash_retrieve (addr_hash (core empty)) (local_key (lit "news")) = None)
    as H1 by reflexivity.
  assert (qd_hash_retrieve (addr_hash (core empty)) (local_key (lit "mail")) = None)
    as H2 by reflexivity.
  assert (local_key (lit "news") ≠ local_key (lit "mail")) as H3
    by (vm_compute; discriminate).
  split; [by repeat split|].
  exact (qdr_add_local_address_distinct Samples.forwarder_of empty
           (lit "news") (lit "mail") 1 2 H1 H2 H3).
Defined.

(** First writer wins, on the empty registry. *)
Example qdr_add_local_address_first_writer :
  let '(a1, m1) := add_local empty (lit "news") 1 in
  let '(a2, m2) := add_local m1 (lit "news") 2 in
  a1 = a2 ∧ m1 = m2 ∧ semantics <$> lookup_address m2 "Lnews" = Some 1.
Proof. vm_compute. by repeat split. Qed.

End registry_runs.

(** ** Reference lists *)

Section reflist_props.
Import RefList.

Lemma new_qdr_link_ref_t_fresh (pool : gmap nat qdr_link_ref_t) :
  pool !! new_qdr_link_ref_t pool = None.
Proof. unfold new_qdr_link_ref_t. apply not_elem_of_dom, is_fresh. Qed.

(** X1. [qdr_add_link_ref] takes a list node that was not in use, makes it stand
    for the link, records it in the link and puts it at the tail of the list,
    after the entries already there. *)
Lemma qdr_add_link_ref_spec ref_list link m :
  ∃ ref m',
    qdr_add_link_ref ref_list link m = (ref_list ++ [ref], m')
    ∧ link_ref_pool m !! ref = None
    ∧ link_ref_pool m' !! ref = Some (LinkRef link)
    ∧ links m' !! link = Some (Link (Some ref))
    ∧ (∀ other, other ≠ ref → link_ref_pool m' !! other = link_ref_pool m !! other)
    ∧ (∀ other, other ≠ link → links m' !! other = links m !! other).
Proof.
  exists (new_qdr_link_ref_t (link_ref_pool m)). eexists.
  split; [reflexivity|]. cbn [link_ref_pool links].
  split; [apply new_qdr_link_ref_t_fresh|].
  split; [apply lookup_insert_eq|]. split; [apply lookup_insert_eq|].
  split; intros other Hne; by apply lookup_insert_ne.
Qed.

Lemma run_calls_snoc cs c st :
  run_calls (cs ++ [c]) st = run_call c (run_calls cs st).
Proof. unfold run_calls. by rewrite foldl_app. Qed.

Lemma adds_snoc cs c :
  adds (cs ++ [c]) = adds cs + match c with AddLinkRef _ => 1 | DelLinkRef _ => 0 end.
Proof.
  induction cs as [|[l|l] cs IH]; simpl; [destruct c; done|rewrite IH; lia|done].
Qed.

(** X3. Whatever the calls, the list only grows: it has one entry per
    [qdr_add_link_ref], and a [qdr_del_link_ref] takes none away. *)
Lemma run_calls_length cs ref_list m :
  length (run_calls cs (ref_list, m)).1 = length ref_list + adds cs.
Proof.
  induction cs as [|c cs IH] using rev_ind.
  - simpl. lia.
  - rewrite run_calls_snoc, adds_snoc.
    destruct (run_calls cs (ref_list, m)) as [l m'] eqn:E. simpl in IH.
    destruct c as [link|link]; simpl.
    + rewrite length_app. simpl. lia.
    + lia.
Qed.

(** C7, on the code: [qdr_del_link_ref] leaves the entry in place.  After a
    link is added to the empty list and then deleted from it, the list still
    holds the one entry of that link, where adds minus matched deletes is
    zero. *)
Theorem qdr_del_link_ref_leaves_entry :
  let '(l1, m1) := qdr_add_link_ref [] 7 empty_memory in
  let '(l2, m2) := qdr_del_link_ref l1 7 m1 in
  l2 = l1 ∧ m2 = m1 ∧ length l2 = 1 ∧ links_of l2 m2 = [Some 7]
  ∧ run_calls [AddLinkRef 7; DelLinkRef 7] ([], empty_memory) = (l2, m2).
Proof. vm_compute. by repeat split. Qed.

(** C8, on the code: [qdr_add_node_ref] adds nothing.  The list and the
    memory come back as they went in, for the empty list and for any
    other. *)
Theorem qdr_add_node_ref_adds_nothing :
  qdr_add_node_ref [] 3 empty_memory = ([], empty_memory)
  ∧ ∀ ref_list rnode m, qdr_add_node_ref ref_list rnode m = (ref_list, m).
Proof. split; reflexivity. Qed.

Example qdr_add_link_ref_order :
  let st := run_calls [AddLinkRef 7; AddLinkRef 8; AddLinkRef 9] ([], empty_memory) in
  links_of st.1 st.2 = [Some 7; Some 8; Some 9]
  ∧ (links st.2 !! 8) ≫= ref = st.1 !! 1.
Proof. vm_compute. by split. Qed.

End reflist_props.

(** ** More on fields *)

Section field_more.
Import CString Field FieldFree.

(** *** Within capacity *)

Lemma chunk_sizes_bounded C L :
  0 < C → Forall (fun n => 0 < n ≤ C) (chunk_sizes C L).
Proof.
  intros HC. unfold chunk_sizes. apply Forall_app. split.
  - apply Forall_replicate. lia.
  - destruct (Nat.eqb_spec (L mod C) 0) as [|Hne]; [constructor|].
    constructor; [|constructor].
    pose proof (Nat.mod_upper_bound L C ltac:(lia)). lia.
Qed.

Lemma concat_no_nul (chunks : list (list ascii)) :
  Forall (fun c => is_nul c = false) (concat chunks) →
  Forall (Forall (fun c => is_nul c = false)) chunks.
Proof.
  induction chunks as [|chunk chunks IH]; simpl; [constructor|].
  intros [H1 H2]%Forall_app. constructor; [done|by apply IH].
Qed.

(** X5. No buffer of the chain is left empty, none is filled beyond the
    capacity, each stores as many bytes as its fill says and none stores a
    NUL byte. *)
Theorem qdr_field_buffers_within_capacity C fuel text p :
  0 < C → 0 < strlen text → strlen text ≤ fuel →
  ∃ field p',
    qdr_field C fuel text p = Some (Some field, p')
    ∧ Forall (fun buf => 0 < size buf ≤ C
                         ∧ length (bytes buf) = size buf
                         ∧ Forall (fun c => is_nul c = false) (bytes buf))
             (buffers field).
Proof.
  intros HC Hpos Hfuel.
  destruct (qdr_field_spec C fuel text p HC Hpos Hfuel)
    as (chain & Hrun & Hsizes & Hfilled & Hbytes).
  eexists _, _. split; [exact Hrun|]. cbn [buffers].
  pose proof (chunk_sizes_bounded C (strlen text) HC) as Hbound.
  rewrite <- Hsizes in Hbound. unfold chain_sizes in Hbound.
  rewrite Forall_fmap in Hbound.
  pose proof (c_str_no_nul text) as Hnul. rewrite <- Hbytes in Hnul.
  apply concat_no_nul in Hnul. rewrite Forall_fmap in Hnul.
  rewrite Forall_forall in *. intros buf Hin.
  specialize (Hbound buf Hin). specialize (Hnul buf Hin).
  destruct (Hfilled buf Hin) as [Hlen _]. simpl in *. done.
Qed.

Lemma qdr_field_buffers_within_capacity_run :
  (0 < 4 ∧ 0 < strlen (lit "0123456789") ∧ strlen (lit "0123456789") ≤ 10)
  ∧ ∃ field p',
      qdr_field 4 10 (lit "0123456789") (Pools 0 0 0) = Some (Some field, p')
      ∧ Forall (fun buf => 0 < size buf ≤ 4
                           ∧ length (bytes buf) = size buf
                           ∧ Forall (fun c => is_nul c = false) (bytes buf))
               (buffers field).
Proof.
  assert (0 < 4) as H1 by lia.
  assert (0 < strlen (lit "0123456789")) as H2 by (vm_compute; lia).
  assert (strlen (lit "0123456789") ≤ 10) as H3 by (vm_compute; lia).
  split; [by repeat split|].
  exact (qdr_field_buffers_within_capacity 4 10 (lit "0123456789") (Pools 0 0 0) H1 H2 H3).
Defined.

(** *** Nothing past the terminator *)

Lemma strlen_app_nul s junk :
  Forall (fun c => is_nul c = false) s → strlen (s ++ NUL :: junk) = length s.
Proof. induction 1 as [|c s Hc _ IH]; simpl; [done|]. by rewrite Hc, IH. Qed.

(** The loop reads no more of the source than the [length] bytes it was
    started with. *)
Lemma qdr_field_loop_ext C fuel : ∀ length t1 t2 acc p,
  take length t1 = take length t2 →
  qdr_field_loop C fuel length t1 acc p = qdr_field_loop C fuel length t2 acc p.
Proof.
  induction fuel as [|fuel IH]; intros length t1 t2 acc p Heq; [done|].
  cbn [qdr_field_loop]. destruct (length =? 0); [done|].
  cbn [qd_buffer]. unfold qd_buffer_capacity. cbn [size]. rewrite Nat.sub_0_r.
  set (copy := if C <? length then C else length).
  assert (copy ≤ length) as Hcopy.
  { subst copy. destruct (Nat.ltb_spec C length); lia. }
  rewrite !loop_body_buffer.
  assert (take copy t1 = take copy t2) as ->.
  { replace copy with (copy `min` length) by lia.
    rewrite <- !take_take. by rewrite Heq. }
  apply IH.
  rewrite !take_drop_commute. replace (copy + (length - copy)) with length by lia.
  by rewrite Heq.
Qed.

(** X6. Bytes that follow the terminator do not reach the field: the call on
    a string followed by NUL and anything else gives what the call on the
    string alone gives. *)
Theorem qdr_field_stops_at_terminator C fuel s junk p :
  Forall (fun c => is_nul c = false) s →
  qdr_field C fuel (s ++ NUL :: junk) p = qdr_field C fuel s p.
Proof.
  intros Hs. unfold qdr_field.
  rewrite (strlen_app_nul s junk Hs), (strlen_no_nul s Hs).
  destruct (length s =? 0); [done|].
  rewrite (qdr_field_loop_ext C fuel (length s) (s ++ NUL :: junk) s); [done|].
  by rewrite take_app_length, firstn_all.
Qed.

Lemma qdr_field_stops_at_terminator_run :
  Forall (fun c => is_nul c = false) (lit "abc")
  ∧ qdr_field 2 3 (lit "abc" ++ NUL :: lit "xyz") (Pools 0 0 0)
    = qdr_field 2 3 (lit "abc") (Pools 0 0 0).
Proof.
  assert (Forall (fun c => is_nul c = false) (lit "abc")) as H
    by (repeat constructor).
  split; [exact H|].
  exact (qdr_field_stops_at_terminator 2 3 (lit "abc") (lit "xyz") (Pools 0 0 0) H).
Defined.

(** *** The number of passes *)

Lemma ceil_div_0 C : 0 < C → ceil_div 0 C = 0.
Proof. intros HC. by rewrite <- chunk_sizes_length, chunk_sizes_0. Qed.

(** One pass takes one chunk off. *)
Lemma ceil_div_pass C L :
  0 < C → 0 < L →
  ceil_div L C = S (ceil_div (L - (if C <? L then C else L)) C).
Proof.
  intros HC HL. rewrite <- !chunk_sizes_length by done.
  destruct (Nat.ltb_spec C L).
  - by rewrite (chunk_sizes_full C L).
  - rewrite Nat.sub_diag, chunk_sizes_0, (chunk_sizes_last C L) by lia. done.
Qed.

(** The loop runs out of fuel exactly when it is given fewer passes than
    there are chunks. *)
Lemma qdr_field_loop_out_of_fuel C fuel : 0 < C → ∀ length text acc p,
  qdr_field_loop C fuel length text acc p = None ↔ fuel < ceil_div length C.
Proof.
  intros HC. induction fuel as [|fuel IH]; intros length text acc p;
    cbn [qdr_field_loop]; destruct (Nat.eqb_spec length 0) as [->|Hne].
  - rewrite ceil_div_0 by done. split; [done|lia].
  - rewrite (ceil_div_pass C length) by lia. split; [lia|done].
  - rewrite ceil_div_0 by done. split; [done|lia].
  - cbn [qd_buffer]. unfold qd_buffer_capacity. cbn [size]. rewrite Nat.sub_0_r.
    rewrite IH, (ceil_div_pass C length) by lia. lia.
Qed.

(** More fuel than needed changes nothing. *)
Lemma qdr_field_loop_fuel_mono C fuel1 : ∀ fuel2 length text acc p r,
  fuel1 ≤ fuel2 →
  qdr_field_loop C fuel1 length text acc p = Some r →
  qdr_field_loop C fuel2 length text acc p = Some r.
Proof.
  induction fuel1 as [|fuel1 IH]; intros fuel2 length text acc p r Hle;
    cbn [qdr_field_loop].
  - destruct (Nat.eqb_spec length 0) as [->|Hne]; [|done].
    intros <-. by destruct fuel2.
  - destruct fuel2 as [|fuel2]; [lia|]. cbn [qdr_field_loop].
    destruct (length =? 0); [done|]. apply IH. lia.
Qed.

(** X7. The loop of [qdr_field] makes exactly ceil(L / C) passes: the call
    does not return when allowed fewer, and allowed that many or more it
    returns what it returns with exactly that many. *)
Theorem qdr_field_passes C fuel text p :
  0 < C → 0 < strlen text →
  (qdr_field C fuel text p = None ↔ fuel < ceil_div (strlen text) C)
  ∧ (ceil_div (strlen text) C ≤ fuel →
     qdr_field C fuel text p = qdr_field C (ceil_div (strlen text) C) text p
     ∧ is_Some (qdr_field C fuel text p)).
Proof.
  intros HC Hpos. unfold qdr_field.
  destruct (Nat.eqb_spec (strlen text) 0) as [|_]; [lia|].
  split.
  - rewrite <- (qdr_field_loop_out_of_fuel C fuel HC (strlen text) text []
                  (new_qdr_field_t p)).
    destruct (qdr_field_loop C fuel _ _ _ _) as [[chain p']|]; [|done].
    split; [|done]. by destruct (qd_field_iterator_buffer _ _ _ _).
  - intros Hfuel.
    destruct (qdr_field_loop C (ceil_div (strlen text) C) (strlen text) text []
                (new_qdr_field_t p)) as [r|] eqn:Hmin.
    + rewrite (qdr_field_loop_fuel_mono C _ fuel _ _ _ _ r Hfuel Hmin).
      destruct r as [chain p']. split; [done|].
      by destruct (qd_field_iterator_buffer _ _ _ _).
    + apply qdr_field_loop_out_of_fuel in Hmin; [lia|done].
Qed.

Lemma qdr_field_passes_run :
  (0 < 4 ∧ 0 < strlen (lit "0123456789"))
  ∧ qdr_field 4 2 (lit "0123456789") (Pools 0 0 0) = None
  ∧ is_Some (qdr_field 4 3 (lit "0123456789") (Pools 0 0 0)).
Proof.
  assert (0 < 4) as H1 by lia.
  assert (0 < strlen (lit "0123456789")) as H2 by (vm_compute; lia).
  split; [by split|].
  split.
  - apply (qdr_field_passes 4 2 (lit "0123456789") (Pools 0 0 0) H1 H2).
    vm_compute. lia.
  - apply (qdr_field_passes 4 3 (lit "0123456789") (Pools 0 0 0) H1 H2).
    vm_compute. lia.
Defined.

(** *** Release *)

(** X8. [qdr_field_free] hands back what [qdr_field] drew from the pools, no
    more and no less: as many buffers as the call allocated, its one field
    and its one iterator, and nothing at all for the null pointer that the
    empty string gives. *)
Theorem qdr_field_free_balances C fuel text p :
  0 < C → strlen text ≤ fuel →
  ∃ field p',
    qdr_field C fuel text p = Some (field, p')
    ∧ qdr_field_free field (Released 0 0 0)
      = Released (buffers_allocated p' - buffers_allocated p)
                 (fields_allocated p' - fields_allocated p)
                 (iterators_allocated p' - iterators_allocated p).
Proof.
  intros HC Hfuel. destruct (decide (strlen text = 0)) as [Hz|Hnz].
  - exists None, p. unfold qdr_field. rewrite Hz. cbn [Nat.eqb].
    split; [done|]. cbn [qdr_field_free]. f_equal; lia.
  - destruct (qdr_field_spec C fuel text p HC ltac:(lia) Hfuel)
      as (chain & Hrun & _).
    eexists _, _. split; [exact Hrun|].
    unfold qdr_field_free, free_qdr_field_t, qd_buffer_list_free_buffers,
      qd_field_iterator_free.
    cbn [iterator buffers buffers_released fields_released iterators_released
         buffers_allocated fields_allocated iterators_allocated].
    f_equal; lia.
Qed.

Lemma qdr_field_free_balances_run :
  (0 < 4 ∧ strlen (lit "0123456789") ≤ 10)
  ∧ ∃ field p',
      qdr_field 4 10 (lit "0123456789") (Pools 0 0 0) = Some (field, p')
      ∧ p' = Pools 3 1 1
      ∧ qdr_field_free field (Released 0 0 0) = Released 3 1 1.
Proof.
  assert (0 < 4) as H1 by lia.
  assert (strlen (lit "0123456789") ≤ 10) as H2 by (vm_compute; lia).
  split; [by split|].
  destruct (qdr_field_free_balances 4 10 (lit "0123456789") (Pools 0 0 0) H1 H2)
    as (field & p' & Hrun & Hfree).
  exists field, p'. split; [exact Hrun|].
  assert (p' = Pools 3 1 1) as Hp by (vm_compute in Hrun; congruence).
  split; [exact Hp|]. rewrite Hfree, Hp. reflexivity.
Defined.

End field_more.

(** ** More on the registry *)

Section registry_more.
Import CString Registry RegistryRuns.

Context {qd_address_semantics_t qd_router_forwarder_t : Type}.
Variable qd_router_get_forwarder : qd_address_semantics_t → qd_router_forwarder_t.

Abbreviation mem := (@memory qd_address_semantics_t qd_router_forwarder_t).
Abbreviation add_address := (qdr_add_local_address qd_router_get_forwarder).
Abbreviation run := (run_adds qd_router_get_forwarder).

(** *** The key *)

(** X9. The key never outgrows the 1000-byte buffer it is formatted in: it
    has at most 999 characters, the first is the marker [L], the others are
    characters of the address and none is NUL. *)
Theorem local_key_bounds (a : list ascii) :
  String.length (local_key a) ≤ 999
  ∧ ∃ rest,
      local_key a = String "L" (string_of_list_ascii rest)
      ∧ rest `prefix_of` c_str a
      ∧ Forall (fun c => is_nul c = false) rest.
Proof.
  split; [rewrite local_key_length; lia|].
  exists (take 998 (c_str a)). split; [apply local_key_eq|].
  split; [apply prefix_take|]. apply Forall_take, c_str_no_nul.
Qed.

(** X10. Below the limit nothing is lost: two addresses of at most 998
    characters have the same key exactly when they are the same string. *)
Theorem local_key_short_inj (a1 a2 : list ascii) :
  strlen a1 ≤ 998 → strlen a2 ≤ 998 →
  (local_key a1 = local_key a2 ↔ c_str a1 = c_str a2).
Proof.
  intros H1 H2. rewrite <- local_key_prefix.
  by rewrite !take_ge by (rewrite c_str_length; lia).
Qed.

(** *** What a call keeps *)

(** A call changes no binding of the index, no object in use and no entry of
    [addrs]. *)
Lemma qdr_add_local_address_frame (m : mem) a semantics :
  let m' := (add_address m a semantics).2 in
  (∀ key addr, addr_hash (core m) !! key = Some addr →
               addr_hash (core m') !! key = Some addr)
  ∧ (∀ addr object, address_pool m !! addr = Some object →
                    address_pool m' !! addr = Some object)
  ∧ addrs (core m) `prefix_of` addrs (core m').
Proof.
  destruct (qd_hash_retrieve (addr_hash (core m)) (local_key a)) as [addr|] eqn:H.
  - rewrite (qdr_add_local_address_hit _ m a semantics addr H). by cbn.
  - rewrite (qdr_add_local_address_new _ m a semantics H).
    cbn [snd core addr_hash addrs address_pool].
    split; [|split].
    + intros key addr Hkey. rewrite lookup_insert_ne; [done|].
      intros <-. unfold qd_hash_retrieve in H. congruence.
    + intros addr object Hobj. rewrite lookup_insert_ne; [done|].
      intros <-. rewrite new_qdr_address_t_fresh in Hobj. done.
    + by apply prefix_app_r.
Qed.

Lemma run_adds_snoc calls call (m : mem) :
  run (calls ++ [call]) m = (add_address (run calls m) call.1 call.2).2.
Proof. unfold run_adds. by rewrite foldl_app. Qed.

Lemma run_adds_bound calls (m : mem) key addr :
  addr_hash (core m) !! key = Some addr →
  addr_hash (core (run calls m)) !! key = Some addr.
Proof.
  intros H. induction calls as [|call calls IH] using rev_ind; [done|].
  rewrite run_adds_snoc.
  by apply (qdr_add_local_address_frame (run calls m) call.1 call.2).
Qed.

(** X11. Later calls take nothing back: whatever calls follow, a key of the
    index stays bound to the same object, an object in use keeps its
    content, and [addrs] only grows at its tail. *)
Theorem run_adds_keeps calls (m : mem) :
  (∀ key addr,
     qd_hash_retrieve (addr_hash (core m)) key = Some addr →
     qd_hash_retrieve
       (addr_hash (core (run_adds qd_router_get_forwarder calls m))) key = Some addr)
  ∧ (∀ addr object,
       address_pool m !! addr = Some object →
       address_pool (run_adds qd_router_get_forwarder calls m) !! addr = Some object)
  ∧ addrs (core m) `prefix_of` addrs (core (run_adds qd_router_get_forwarder calls m)).
Proof.
  unfold qd_hash_retrieve.
  induction calls as [|call calls IH] using rev_ind; [done|].
  rewrite run_adds_snoc.
  destruct IH as (IH1 & IH2 & IH3).
  destruct (qdr_add_local_address_frame (run calls m) call.1 call.2)
    as (F1 & F2 & F3).
  split; [|split].
  - intros key addr Hkey. by apply F1, IH1.
  - intros addr object Hobj. by apply F2, IH2.
  - by etrans.
Qed.

(** *** The shape of the registry *)

Lemma registry_wf_empty : registry_wf (@empty_memory qd_address_semantics_t qd_router_forwarder_t).
Proof.
  unfold registry_wf, empty_memory. cbn [core addr_hash addrs address_pool].
  split; [intros key addr H; by rewrite lookup_empty in H|].
  split; [constructor|]. split; [|by rewrite map_size_empty].
  intros addr. split; [by intros ?%elem_of_nil|].
  intros [key H]. by rewrite lookup_empty in H.
Qed.

Lemma registry_wf_step (m : mem) a semantics :
  registry_wf m → registry_wf (add_address m a semantics).2.
Proof.
  intros (Hobj & Hnodup & Hlist & Hsize).
  destruct (qd_hash_retrieve (addr_hash (core m)) (local_key a)) as [addr|] eqn:H.
  { by rewrite (qdr_add_local_address_hit _ m a semantics addr H). }
  rewrite (qdr_add_local_address_new _ m a semantics H).
  unfold qd_hash_retrieve in H.
  pose proof (new_qdr_address_t_fresh (address_pool m)) as Hfresh.
  set (new := new_qdr_address_t (address_pool m)) in *.
  assert (∀ key, addr_hash (core m) !! key ≠ Some new) as Hunbound.
  { intros key Hkey. destruct (Hobj key new Hkey) as (object & Hin & _). congruence. }
  unfold registry_wf. cbn [snd core addr_hash addrs address_pool].
  split; [|split; [|split]].
  - intros key addr Hkey.
    destruct (decide (key = local_key a)) as [->|Hne].
    + rewrite lookup_insert_eq in Hkey. injection Hkey as <-.
      eexists. by rewrite lookup_insert_eq.
    + rewrite lookup_insert_ne in Hkey by done.
      destruct (Hobj key addr Hkey) as (object & Hin & Hhandle).
      exists object. split; [|done].
      rewrite lookup_insert_ne; [done|]. intros <-. congruence.
  - apply NoDup_app. split; [done|]. split; [|apply NoDup_singleton].
    intros addr Hin ->%list_elem_of_singleton.
    apply Hlist in Hin as [key Hkey]. by apply (Hunbound key).
  - intros addr. rewrite elem_of_app, list_elem_of_singleton, Hlist. split.
    + intros [[key Hkey]| ->].
      * exists key. rewrite lookup_insert_ne; [done|]. intros <-. congruence.
      * exists (local_key a). apply lookup_insert_eq.
    + intros [key Hkey]. destruct (decide (key = local_key a)) as [->|Hne].
      * rewrite lookup_insert_eq in Hkey. right. congruence.
      * rewrite lookup_insert_ne in Hkey by done. left. by exists key.
  - rewrite length_app, map_size_insert_None by done. simpl. lia.
Qed.

(** X12. The calls keep the registry in shape: in a registry where every key
    of the index leads to an object in use whose handle names that key,
    where [addrs] lists each object once and lists exactly the objects of
    the index, and where the list and the index have as many entries, all of
    that still holds after any sequence of calls. *)
Theorem run_adds_wf calls (m : mem) :
  registry_wf m → registry_wf (run calls m).
Proof.
  intros Hwf. induction calls as [|call calls IH] using rev_ind; [done|].
  rewrite run_adds_snoc. by apply registry_wf_step.
Qed.

(** In a registry in shape, two keys never lead to the same object. *)
Lemma registry_wf_inj (m : mem) key1 key2 addr :
  registry_wf m →
  addr_hash (core m) !! key1 = Some addr →
  addr_hash (core m) !! key2 = Some addr → key1 = key2.
Proof.
  intros (Hobj & _) H1 H2.
  destruct (Hobj key1 addr H1) as (o1 & Ho1 & Hh1).
  destruct (Hobj key2 addr H2) as (o2 & Ho2 & Hh2). congruence.
Qed.

(** X13. An address that was added is found from then on: after a sequence
    of calls, a further call with any address of the sequence creates
    nothing and changes nothing, whatever semantics it is given, and
    returns the object filed under the key of that address. *)
Theorem run_adds_then_hit calls (m : mem) a semantics semantics' :
  (a, semantics) ∈ calls →
  ∃ addr,
    add_address (run calls m) a semantics' = (addr, run calls m)
    ∧ qd_hash_retrieve (addr_hash (core (run calls m))) (local_key a) = Some addr.
Proof.
  intros Hin. apply list_elem_of_split in Hin as (before & after & ->).
  replace (before ++ (a, semantics) :: after)
    with ((before ++ [(a, semantics)]) ++ after) by by rewrite <- app_assoc.
  unfold run_adds at 1 2 3. rewrite foldl_app. fold (run (before ++ [(a, semantics)]) m).
  set (m1 := run (before ++ [(a, semantics)]) m). fold (run after m1).
  assert (∃ addr, addr_hash (core m1) !! local_key a = Some addr) as [addr Hbound].
  { unfold m1. rewrite run_adds_snoc. cbn [fst snd].
    destruct (qdr_add_local_address_binds qd_router_get_forwarder (run before m) a semantics)
      as (addr & m' & Hrun & Hfound & _).
    exists addr. by rewrite Hrun. }
  exists addr.
  pose proof (run_adds_bound after m1 _ _ Hbound) as Hkeep.
  split; [by apply qdr_add_local_address_hit|exact Hkeep].
Qed.

Lemma run_adds_object calls (m : mem) addr object :
  address_pool m !! addr = Some object →
  address_pool (run calls m) !! addr = Some object.
Proof.
  intros H. induction calls as [|call calls IH] using rev_ind; [done|].
  rewrite run_adds_snoc.
  by apply (qdr_add_local_address_frame (run calls m) call.1 call.2).
Qed.

(** X17. The first writer wins for good: when a call creates the object of a
    key, then whatever calls follow, with that key or others and with any
    semantics, a lookup of the key finds the object as that call left it:
    the semantics and the forwarder of that call, [block_deletion] set,
    both reference lists empty. *)
Theorem run_adds_first_writer before after (m : mem) a semantics :
  addr_hash (core (run before m)) !! local_key a = None →
  lookup_address (run (before ++ (a, semantics) :: after) m) (local_key a)
  = Some (Address semantics (qd_router_get_forwarder semantics) true
                  (Some (local_key a)) [] []).
Proof.
  intros Hmiss.
  replace (before ++ (a, semantics) :: after)
    with ((before ++ [(a, semantics)]) ++ after) by by rewrite <- app_assoc.
  unfold run_adds at 1. rewrite foldl_app.
  fold (run (before ++ [(a, semantics)]) m).
  set (m1 := run (before ++ [(a, semantics)]) m). fold (run after m1).
  pose proof (qdr_add_local_address_new qd_router_get_forwarder
                (run before m) a semantics Hmiss) as Hnew. cbv zeta in Hnew.
  assert (addr_hash (core m1) !! local_key a
          = Some (new_qdr_address_t (address_pool (run before m)))
          ∧ address_pool m1 !! new_qdr_address_t (address_pool (run before m))
            = Some (Address semantics (qd_router_get_forwarder semantics) true
                            (Some (local_key a)) [] [])) as [Hkey Hobj].
  { unfold m1. rewrite run_adds_snoc. cbn [fst snd]. rewrite Hnew.
    cbn [snd core addr_hash address_pool]. by rewrite !lookup_insert_eq. }
  unfold lookup_address, qd_hash_retrieve.
  rewrite (run_adds_bound after m1 _ _ Hkey). cbn.
  by apply run_adds_object.
Qed.

Lemma run_adds_wf_empty calls : registry_wf (run calls empty_memory).
Proof.
  induction calls as [|call calls IH] using rev_ind; [apply registry_wf_empty|].
  rewrite run_adds_snoc. by apply registry_wf_step.
Qed.

(** X14. No aliasing: in a registry built by calls from the empty one, two
    keys bound to the same object are the same key, and the object is in use
    and in [addrs]. *)
Theorem run_adds_no_alias calls key1 key2 addr :
  addr_hash (core (run calls empty_memory)) !! key1 = Some addr →
  addr_hash (core (run calls empty_memory)) !! key2 = Some addr →
  key1 = key2
  ∧ is_Some (address_pool (run calls empty_memory) !! addr)
  ∧ addr ∈ addrs (core (run calls empty_memory)).
Proof.
  intros H1 H2. pose proof (run_adds_wf_empty calls) as Hwf.
  split; [by eapply registry_wf_inj|].
  destruct Hwf as (Hobj & _ & Hlist & _).
  split.
  - destruct (Hobj key1 addr H1) as (object & Hin & _). by exists object.
  - apply Hlist. by exists key1.
Qed.

End registry_more.

Section registry_more_runs.
Import CString Registry RegistryRuns.

Abbreviation run_from_empty := (run_adds Samples.forwarder_of).

Lemma local_key_short_inj_run :
  (strlen (lit "news") ≤ 998 ∧ strlen (lit "mail") ≤ 998)
  ∧ (local_key (lit "news") = local_key (lit "mail")
     ↔ c_str (lit "news") = c_str (lit "mail"))
  ∧ local_key (lit "news") ≠ local_key (lit "mail").
Proof.
  assert (strlen (lit "news") ≤ 998) as H1 by (vm_compute; lia).
  assert (strlen (lit "mail") ≤ 998) as H2 by (vm_compute; lia).
  split; [by split|].
  pose proof (local_key_short_inj (lit "news") (lit "mail") H1 H2) as Hiff.
  split; [exact Hiff|].
  intros E. apply Hiff in E. vm_compute in E. discriminate.
Defined.

Lemma run_adds_wf_run :
  registry_wf (@empty_memory nat nat)
  ∧ registry_wf (run_from_empty [(lit "news", 1); (lit "mail", 2); (lit "news", 3)]
                                empty_memory).
Proof.
  assert (registry_wf (@empty_memory nat nat)) as H by apply registry_wf_empty.
  split; [exact H|].
  exact (run_adds_wf Samples.forwarder_of
           [(lit "news", 1); (lit "mail", 2); (lit "news", 3)] empty_memory H).
Defined.

Lemma run_adds_then_hit_run :
  (lit "news", 1) ∈ [(lit "news", 1); (lit "mail", 2)]
  ∧ ∃ addr,
      qdr_add_local_address Samples.forwarder_of
        (run_from_empty [(lit "news", 1); (lit "mail", 2)] empty_memory) (lit "news") 9
      = (addr, run_from_empty [(lit "news", 1); (lit "mail", 2)] empty_memory)
      ∧ qd_hash_retrieve
          (addr_hash (core (run_from_empty [(lit "news", 1); (lit "mail", 2)] empty_memory)))
          (local_key (lit "news")) = Some addr.
Proof.
  assert ((lit "news", 1) ∈ [(lit "news", 1); (lit "mail", 2)]) as H
    by apply list_elem_of_here.
  split; [exact H|].
  exact (run_adds_then_hit Samples.forwarder_of
           [(lit "news", 1); (lit "mail", 2)] empty_memory (lit "news") 1 9 H).
Defined.

Lemma run_adds_first_writer_run :
  addr_hash (core (run_from_empty [(lit "mail", 2)] (@empty_memory nat nat)))
    !! local_key (lit "news") = None
  ∧ lookup_address
      (run_from_empty ([(lit "mail", 2)] ++ (lit "news", 1) :: [(lit "news", 5); (lit "mail", 7)])
                      empty_memory)
      "Lnews"
    = Some (Address 1 (Samples.forwarder_of 1) true (Some "Lnews") [] []).
Proof.
  assert (addr_hash (core (run_from_empty [(lit "mail", 2)] (@empty_memory nat nat)))
            !! local_key (lit "news") = None) as H by (vm_compute; reflexivity).
  split; [exact H|].
  exact (run_adds_first_writer Samples.forwarder_of [(lit "mail", 2)]
           [(lit "news", 5); (lit "mail", 7)] empty_memory (lit "news") 1 H).
Defined.

Lemma run_adds_no_alias_run :
  (addr_hash (core (run_from_empty [(lit "news", 1); (lit "mail", 2)] empty_memory))
     !! "Lmail" = Some 1)
  ∧ "Lmail" = "Lmail"
  ∧ is_Some (address_pool (run_from_empty [(lit "news", 1); (lit "mail", 2)] empty_memory)
               !! 1)
  ∧ 1 ∈ addrs (core (run_from_empty [(lit "news", 1); (lit "mail", 2)] empty_memory)).
Proof.
  assert (addr_hash (core (run_from_empty [(lit "news", 1); (lit "mail", 2)] empty_memory))
            !! "Lmail" = Some 1) as H by (vm_compute; reflexivity).
  split; [exact H|].
  exact (run_adds_no_alias Samples.forwarder_of
           [(lit "news", 1); (lit "mail", 2)] "Lmail" "Lmail" 1 H H).
Defined.

End registry_more_runs.

(** ** More on reference lists *)

Section reflist_more.
Import RefList RefListRuns.

Lemma added_links_snoc cs c :
  added_links (cs ++ [c])
  = added_links cs ++ match c with AddLinkRef l => [l] | DelLinkRef _ => [] end.
Proof.
  induction cs as [|[l|l] cs IH]; simpl; [by destruct c|by rewrite IH|done].
Qed.

Lemma links_of_app l1 l2 m : links_of (l1 ++ l2) m = links_of l1 m ++ links_of l2 m.
Proof. unfold links_of. apply fmap_app. Qed.

(** A node taken from the pool is none of the nodes in use: what they stand
    for is not disturbed. *)
Lemma links_of_fresh ref_list m new x lks :
  (∀ r, r ∈ ref_list → is_Some (link_ref_pool m !! r)) →
  link_ref_pool m !! new = None →
  links_of ref_list (Mem (<[new := x]> (link_ref_pool m)) lks) = links_of ref_list m.
Proof.
  intros Hlive Hfresh. unfold links_of. cbn [link_ref_pool].
  apply list_fmap_ext. intros i r Hr.
  rewrite lookup_insert_ne; [done|]. intros <-.
  destruct (Hlive new) as [y Hy]; [by eapply list_elem_of_lookup_2|]. congruence.
Qed.

(** X15. Iteration order is insertion order: after any sequence of calls on
    a list of distinct nodes in use, the list stands for the links it stood
    for before, followed by the links of the [qdr_add_link_ref] calls in the
    order of the calls; its nodes are still distinct and in use. *)
Theorem run_calls_links cs ref_list m :
  (∀ r, r ∈ ref_list → is_Some (link_ref_pool m !! r)) →
  NoDup ref_list →
  links_of (run_calls cs (ref_list, m)).1 (run_calls cs (ref_list, m)).2
  = links_of ref_list m ++ (Some <$> added_links cs)
  ∧ NoDup (run_calls cs (ref_list, m)).1
  ∧ (∀ r, r ∈ (run_calls cs (ref_list, m)).1 →
          is_Some (link_ref_pool (run_calls cs (ref_list, m)).2 !! r)).
Proof.
  intros Hlive Hnodup. induction cs as [|c cs IH] using rev_ind.
  - simpl. by rewrite app_nil_r.
  - rewrite run_calls_snoc, added_links_snoc.
    destruct (run_calls cs (ref_list, m)) as [l0 m0].
    destruct IH as (IHlinks & IHnodup & IHlive). cbn [fst snd] in *.
    destruct c as [l|l]; cbn [run_call fst snd].
    + unfold qdr_add_link_ref. cbn [fst snd link_ref_pool].
      pose proof (new_qdr_link_ref_t_fresh (link_ref_pool m0)) as Hfresh.
      set (new := new_qdr_link_ref_t (link_ref_pool m0)) in *.
      split; [|split].
      * rewrite links_of_app, links_of_fresh by done.
        rewrite IHlinks, fmap_app, app_assoc. f_equal.
        unfold links_of. cbn [fmap list_fmap link_ref_pool].
        by rewrite lookup_insert_eq.
      * apply NoDup_app. split; [done|]. split; [|apply NoDup_singleton].
        intros r Hr ->%list_elem_of_singleton.
        destruct (IHlive new Hr) as [y Hy]. congruence.
      * intros r [Hr| ->%list_elem_of_singleton]%elem_of_app.
        -- destruct (IHlive r Hr) as [y Hy].
           destruct (decide (r = new)) as [->|Hne]; [congruence|].
           rewrite lookup_insert_ne by done. by exists y.
        -- rewrite lookup_insert_eq. by eexists.
    + unfold qdr_del_link_ref. cbn [fst snd].
      by rewrite app_nil_r.
Qed.

(** X16. A link added twice is listed twice: the two calls take two
    different nodes, both stand for the link and both are in the list, and
    the link remembers the second one only. *)
Theorem qdr_add_link_ref_twice ref_list link m :
  ∃ r1 r2 m2,
    (let '(l1, m1) := qdr_add_link_ref ref_list link m in
     qdr_add_link_ref l1 link m1) = (ref_list ++ [r1; r2], m2)
    ∧ r1 ≠ r2
    ∧ link_ref_pool m2 !! r1 = Some (LinkRef link)
    ∧ link_ref_pool m2 !! r2 = Some (LinkRef link)
    ∧ links m2 !! link = Some (Link (Some r2)).
Proof.
  unfold qdr_add_link_ref. cbn [link_ref_pool links].
  set (r1 := new_qdr_link_ref_t (link_ref_pool m)).
  set (pool1 := <[r1 := LinkRef link]> (link_ref_pool m)).
  set (r2 := new_qdr_link_ref_t pool1).
  assert (r1 ≠ r2) as Hne.
  { intros E. pose proof (new_qdr_link_ref_t_fresh pool1) as Hfresh.
    fold r2 in Hfresh. rewrite <- E in Hfresh. unfold pool1 in Hfresh.
    by rewrite lookup_insert_eq in Hfresh. }
  exists r1, r2. eexists. split; [by rewrite <- app_assoc|].
  cbn [link_ref_pool links]. split; [done|].
  split; [rewrite lookup_insert_ne by done; apply lookup_insert_eq|].
  split; apply lookup_insert_eq.
Qed.

Lemma run_calls_links_run :
  ((∀ r, r ∈ [] → is_Some (link_ref_pool empty_memory !! r)) ∧ NoDup (@nil nat))
  ∧ links_of (run_calls [AddLinkRef 7; DelLinkRef 7; AddLinkRef 9; AddLinkRef 7]
                        ([], empty_memory)).1
             (run_calls [AddLinkRef 7; DelLinkRef 7; AddLinkRef 9; AddLinkRef 7]
                        ([], empty_memory)).2
    = [Some 7; Some 9; Some 7].
Proof.
  assert (∀ r, r ∈ [] → is_Some (link_ref_pool empty_memory !! r)) as H1
    by (intros r ?%elem_of_nil; done).
  assert (NoDup (@nil nat)) as H2 by constructor.
  split; [by split|].
  destruct (run_calls_links [AddLinkRef 7; DelLinkRef 7; AddLinkRef 9; AddLinkRef 7]
              [] empty_memory H1 H2) as (Hlinks & _).
  exact Hlinks.
Defined.

End reflist_more.
